(** * AlgBench: the [Benchmark] front end over a fingerprint-indexed store

    A shallow embedding of [src/algbench/benchmark.py].  Python values are an
    inductive type, dictionaries are insertion-ordered association lists,
    exceptions are an explicit [result] type, and the effects of [run]
    (the clock, the console, the store) are threaded through a state record.

    [inspect.Signature.bind] is the standard library's; it is transcribed
    from CPython 3.11 ([Signature._bind] with [partial=False]). *)

From Stdlib Require Import List String Ascii ZArith QArith Bool Lia.
From Stdlib Require Import DecimalString.
From Stdlib Require Import Permutation Sorted Relations.
From Stdlib Require Import Structures.OrderedTypeEx.
Import ListNotations.
Open Scope string_scope.
Open Scope list_scope.

Set Implicit Arguments.
Set Warnings "-register-all".

(** ** Python data *)

(** A Python [dict] with [str] keys: an association list in insertion order.
    Keys are unique; the operations below keep them so. *)
Definition dict (A : Type) := list (string * A).

Inductive value : Type :=
| VNone
| VBool (b : bool)
| VInt (z : Z)
| VFloat (q : Q)
| VStr (s : string)
| VList (l : list value)
| VTuple (l : list value)
| VDict (d : list (string * value))
| VObj (repr : string).

(** Exceptions.  [exc_is_Exception] tells an instance of [Exception] from one
    that only derives from [BaseException] ([KeyboardInterrupt],
    [SystemExit]): [except Exception] catches the former only. *)
Record exn : Type := mkExn {
  exc_type : string;
  exc_str : string;
  exc_is_Exception : bool
}.

Inductive result (A : Type) : Type :=
| Ok (a : A)
| Raise (e : exn).
Arguments Ok {A} a.
Arguments Raise {A} e.

Definition TypeError (msg : string) : exn :=
  {| exc_type := "TypeError"; exc_str := msg; exc_is_Exception := true |}.

Definition bind_result {A B} (r : result A) (k : A -> result B) : result B :=
  match r with
  | Ok a => k a
  | Raise e => Raise e
  end.

Notation "x <- r ;; k" := (bind_result r (fun x => k))
  (at level 61, r at next level, right associativity).
Notation "' p <- r ;; k" := (bind_result r (fun x => match x with p => k end))
  (at level 61, p pattern, r at next level, right associativity).

Module Dict.
Section Ops.
Context {A : Type}.

Definition keys (d : dict A) : list string := map fst d.

  (** [d.get(k)] *)
Fixpoint get (k : string) (d : dict A) : option A :=
    match d with
    | [] => None
    | (k', v) :: d' => if (k' =? k)%string then Some v else get k d'
    end.

  (** [k in d] *)
Definition mem (k : string) (d : dict A) : bool :=
    match get k d with Some _ => true | None => false end.

  (** [d[k] = v]: an existing key keeps its place, a new key goes last. *)
Fixpoint set (k : string) (v : A) (d : dict A) : dict A :=
    match d with
    | [] => [(k, v)]
    | (k', v') :: d' =>
        if (k' =? k)%string then (k', v) :: d' else (k', v') :: set k v d'
    end.

  (** [d.update(other)] *)
Definition update (d other : dict A) : dict A :=
    fold_left (fun acc kv => set (fst kv) (snd kv) acc) other d.

  (** [d.pop(k)]: [None] stands for [KeyError]. *)
Fixpoint pop (k : string) (d : dict A) : option (A * dict A) :=
    match d with
    | [] => None
    | (k', v) :: d' =>
        if (k' =? k)%string then Some (v, d')
        else match pop k d' with
             | Some (x, r) => Some (x, (k', v) :: r)
             | None => None
             end
    end.

  (** [{k: v for k, v in d.items() if p(k)}] *)
Definition filter_keys (p : string -> bool) (d : dict A) : dict A :=
    filter (fun kv => p (fst kv)) d.
End Ops.
End Dict.

(** [key.startswith("_")] *)
Definition startswith_underscore (key : string) : bool :=
  match key with
  | String c _ => Ascii.eqb c "_"%char
  | EmptyString => false
  end.

(** ** [inspect.signature] and [Signature.bind] *)

Inductive kind : Type :=
| POSITIONAL_ONLY
| POSITIONAL_OR_KEYWORD
| VAR_POSITIONAL
| KEYWORD_ONLY
| VAR_KEYWORD.

Definition kind_eqb (a b : kind) : bool :=
  match a, b with
  | POSITIONAL_ONLY, POSITIONAL_ONLY
  | POSITIONAL_OR_KEYWORD, POSITIONAL_OR_KEYWORD
  | VAR_POSITIONAL, VAR_POSITIONAL
  | KEYWORD_ONLY, KEYWORD_ONLY
  | VAR_KEYWORD, VAR_KEYWORD => true
  | _, _ => false
  end.

(** [inspect.Parameter] (the name is a Rocq keyword, hence [Param]);
    [default = None] is [Parameter.empty]. *)
Record Param : Type := mkParam {
  name : string;
  pkind : kind;
  default : option value
}.

(** [sig.parameters], in declaration order. *)
Definition Signature := list Param.

Definition quote (s : string) : string := "'" ++ s ++ "'".

(** The [while True] loop of [_bind]: positional arguments against the
    parameters.  Returns the arguments bound so far and the parameters left
    for the keyword phase ([itertools.chain(parameters_ex, parameters)]). *)
Fixpoint bind_positional (parameters : Signature) (arg_vals : list value)
    (kwargs : dict value) (arguments : dict value)
    : result (dict value * Signature) :=
  match arg_vals with
  | [] =>
      match parameters with
      | [] => Ok (arguments, [])
      | param :: rest =>
          if kind_eqb (pkind param) VAR_POSITIONAL then Ok (arguments, rest)
          else if Dict.mem (name param) kwargs then
            if kind_eqb (pkind param) POSITIONAL_ONLY then
              Raise (TypeError (quote (name param) ++
                " parameter is positional only, but was passed as a keyword"))
            else Ok (arguments, param :: rest)
          else if kind_eqb (pkind param) VAR_KEYWORD
                  || match default param with Some _ => true | None => false end
          then Ok (arguments, param :: rest)
          else Raise (TypeError ("missing a required argument: " ++
                                 quote (name param)))
      end
  | arg_val :: arg_vals' =>
      match parameters with
      | [] => Raise (TypeError "too many positional arguments")
      | param :: rest =>
          if kind_eqb (pkind param) VAR_KEYWORD
             || kind_eqb (pkind param) KEYWORD_ONLY
          then Raise (TypeError "too many positional arguments")
          else if kind_eqb (pkind param) VAR_POSITIONAL then
            Ok (Dict.set (name param) (VTuple (arg_val :: arg_vals')) arguments,
                rest)
          else if Dict.mem (name param) kwargs
                  && negb (kind_eqb (pkind param) POSITIONAL_ONLY)
          then Raise (TypeError ("multiple values for argument " ++
                                 quote (name param)))
          else bind_positional rest arg_vals' kwargs
                 (Dict.set (name param) arg_val arguments)
      end
  end.

(** The [for param in itertools.chain(parameters_ex, parameters)] loop:
    keyword arguments are popped from [kwargs] parameter by parameter. *)
Fixpoint bind_keywords (parameters : Signature) (kwargs : dict value)
    (arguments : dict value) (kwargs_param : option Param)
    : result (dict value * dict value * option Param) :=
  match parameters with
  | [] => Ok (arguments, kwargs, kwargs_param)
  | param :: rest =>
      if kind_eqb (pkind param) VAR_KEYWORD then
        bind_keywords rest kwargs arguments (Some param)
      else if kind_eqb (pkind param) VAR_POSITIONAL then
        bind_keywords rest kwargs arguments kwargs_param
      else
        match Dict.pop (name param) kwargs with
        | None =>
            match default param with
            | None => Raise (TypeError ("missing a required argument: " ++
                                        quote (name param)))
            | Some _ => bind_keywords rest kwargs arguments kwargs_param
            end
        | Some (arg_val, kwargs') =>
            if kind_eqb (pkind param) POSITIONAL_ONLY then
              Raise (TypeError (quote (name param) ++
                " parameter is positional only, but was passed as a keyword"))
            else bind_keywords rest kwargs'
                   (Dict.set (name param) arg_val arguments) kwargs_param
        end
  end.

(** The end of [_bind]: keyword arguments that name no parameter go to the
    [**kwargs] parameter, if there is one. *)
Definition bind_leftover (arguments kwargs : dict value)
    (kwargs_param : option Param) : result (dict value) :=
  match kwargs with
  | [] => Ok arguments
  | (k, _) :: _ =>
      match kwargs_param with
      | Some p => Ok (Dict.set (name p) (VDict kwargs) arguments)
      | None => Raise (TypeError ("got an unexpected keyword argument " ++
                                  quote k))
      end
  end.

(** [sig.bind] applied to the call, then [.arguments] *)
Definition bind (sig : Signature) (args : list value) (kwargs : dict value)
    : result (dict value) :=
  '(arguments, parameters) <- bind_positional sig args kwargs [] ;;
  '(arguments, kwargs, kwargs_param) <-
     bind_keywords parameters kwargs arguments None ;;
  bind_leftover arguments kwargs kwargs_param.

(** A well-formed signature, as [inspect.Signature] and [inspect.Parameter]
    enforce it when they are built: parameter names are unique, the kinds
    come in the order positional-only, positional-or-keyword, [*args],
    keyword-only, [**kwargs], and the two variadic kinds carry no default. *)
Definition kind_rank (k : kind) : nat :=
  match k with
  | POSITIONAL_ONLY => 0
  | POSITIONAL_OR_KEYWORD => 1
  | VAR_POSITIONAL => 2
  | KEYWORD_ONLY => 3
  | VAR_KEYWORD => 4
  end%nat.

Definition kind_le (p q : Param) : Prop :=
  (kind_rank (pkind p) <= kind_rank (pkind q))%nat.

Definition variadic (p : Param) : bool :=
  kind_eqb (pkind p) VAR_POSITIONAL || kind_eqb (pkind p) VAR_KEYWORD.

Definition wf_param (p : Param) : Prop :=
  variadic p = true -> default p = None.

Definition wf_sig (sig : Signature) : Prop :=
  NoDup (map name sig) /\ Forall wf_param sig /\ StronglySorted kind_le sig.

(** ** The portable serializer and the fingerprinter *)

(** The serialized tree of the specification: null, boolean, number, text,
    ordered sequence, mapping of text to tree. *)
Inductive json : Type :=
| JNull
| JBool (b : bool)
| JNum (q : Q)
| JStr (s : string)
| JList (l : list json)
| JDict (d : list (string * json)).

(** [sorted(d.items())] on a mapping with unique keys: insertion sort on the
    key, lexicographic order. *)
Section SortKeys.
Context {A : Type}.

Fixpoint insert_key (kv : string * A) (d : dict A) : dict A :=
    match d with
    | [] => [kv]
    | kv' :: d' =>
        match String.compare (fst kv) (fst kv') with
        | Gt => kv' :: insert_key kv d'
        | _ => kv :: d
        end
    end.

Definition sort_keys (d : dict A) : dict A := fold_right insert_key [] d.
End SortKeys.

(** Canonical form: mapping keys sorted, numbers in a single (reduced)
    representation, sequences kept in order. *)
Fixpoint canonical (j : json) : json :=
  match j with
  | JNum q => JNum (Qred q)
  | JList l => JList (map canonical l)
  | JDict d => JDict (sort_keys (map (fun '(k, x) => (k, canonical x)) d))
  | _ => j
  end.

(** ** The store *)

(** An Entry of the specification. *)
Record Entry : Type := mkEntry {
  fingerprint_of : string;
  parameters : json;
  result_of : json
}.

(** What a scan finds at one place of a storage unit: an Entry written whole,
    or the remains of a write that failed midway. *)
Inductive Slot : Type :=
| Whole (e : Entry)
| Torn.

(** The clock, the console and a count of the calls made to benchmarked
    callables. *)
Record World : Type := mkWorld {
  clock : Q;
  console_out : string;
  console_err : string;
  calls : nat
}.

(** What one call of a benchmarked callable does: the text it writes to
    [sys.stdout] and [sys.stderr], the time it takes, and its return value or
    the exception it raises. *)
Record Behaviour : Type := mkBehaviour {
  printed_out : string;
  printed_err : string;
  elapsed : Q;
  outcome : result value
}.

Record Callable : Type := mkCallable {
  __name__ : string;
  signature : Signature;
  body : World -> list value -> dict value -> Behaviour
}.

(** What [benchmark.py] takes from libraries: the byte rendering and the
    hash behind the fingerprint, the tag the serializer puts on a textual
    fallback, [yaml.dump], [datetime.isoformat] and
    [traceback.format_exc]. *)
Class Externals : Type := {
  render : json -> string;
  hash : string -> string;
  fallback_tag : string -> string;
  yaml_dump : json -> string;
  isoformat : Q -> string;
  format_exc : exn -> string
}.

(** Modelled from the spec: [to_json] of [db/json_serializer.py], which is
    not among the sources.  Section 4.2: JSON-native values pass through,
    known containers become their JSON-native equivalent (tuples become
    sequences), anything else becomes its tagged textual representation; the
    function is total. *)
Fixpoint to_json `{Externals} (v : value) : json :=
  match v with
  | VNone => JNull
  | VBool b => JBool b
  | VInt z => JNum (inject_Z z)
  | VFloat q => JNum q
  | VStr s => JStr s
  | VList l => JList (map to_json l)
  | VTuple l => JList (map to_json l)
  | VDict d => JDict (map (fun '(k, x) => (k, to_json x)) d)
  | VObj repr => JStr (fallback_tag repr)
  end.

(** Modelled from the spec: [fingerprint] of [fingerprint.py], which is not
    among the sources.  Section 4.1: the input goes through the serializer,
    is canonicalized, rendered to a byte string and hashed. *)
Definition fingerprint `{Externals} (data : value) : string :=
  hash (render (canonical (to_json data))).

(** Modelled from the spec: the [BenchmarkDb] of [benchmark_db.py], which is
    not among the sources.  Sections 3, 4.3 and 6: a store is a collection of
    independently written units; [add] and [insert] write a unit of their
    own; a scan yields every Entry written whole; [compress] merges the
    units and keeps every Entry, duplicates included; [delete] removes the
    collection. *)
Module BenchmarkDb.
Definition t := list (list Slot).

Definition empty : t := [].

Definition whole (s : Slot) : list Entry :=
    match s with
    | Whole e => [e]
    | Torn => []
    end.

  (** [iter(db)] *)
Definition scan (db : t) : list Entry := flat_map (flat_map whole) db.

Definition contains_fingerprint (fingp : string) (db : t) : bool :=
    existsb (fun e => (fingerprint_of e =? fingp)%string) (scan db).

Definition insert (entry : Entry) (db : t) : t := db ++ [[Whole entry]].

Definition add `{Externals} (arg_fingerprint : string) (arg_data : json)
      (result : value) (db : t) : t :=
    insert {| fingerprint_of := arg_fingerprint;
              parameters := arg_data;
              result_of := to_json result |} db.

Definition compress (db : t) : t :=
    match scan db with
    | [] => []
    | entries => [map Whole entries]
    end.

Definition delete (db : t) : t := [].

Definition front (db : t) : option Entry := hd_error (scan db).

  (** No slot of a compressed store is torn. *)
Definition all_whole (db : t) : Prop :=
    Forall (Forall (fun s => s <> Torn)) db.

End BenchmarkDb.

Definition nl : string := String (ascii_of_nat 10) EmptyString.

(** [print(s)] on a console *)
Definition print (s : string) (console : string) : string :=
  console ++ s ++ nl.

(** ** [class Benchmark] *)
Module Benchmark.
Section Methods.
Context `{Externals}.

  (** The state behind [self._db]. *)
Definition t := BenchmarkDb.t.

  (** [{k: v.default for k, v in sig.parameters.items()
        if v.default is not inspect.Parameter.empty}] *)
Definition defaults (sig : Signature) : dict value :=
    fold_left (fun acc p =>
                 match default p with
                 | Some d => Dict.set (name p) d acc
                 | None => acc
                 end) sig [].

  (** The merged arguments [func_args] of [_get_arg_data]. *)
Definition func_args (func : Callable) (args : list value)
      (kwargs : dict value) : result (dict value) :=
    arguments <- bind (signature func) args kwargs ;;
    Ok (Dict.update (defaults (signature func)) arguments).

Definition arg_data_of (func : Callable) (func_args : dict value) : value :=
    VDict [("func", VStr (__name__ func));
           ("args", VDict (Dict.filter_keys
                             (fun key => negb (startswith_underscore key))
                             func_args))].

Definition _get_arg_data (func : Callable) (args : list value)
      (kwargs : dict value) : result (string * json) :=
    func_args <- func_args func args kwargs ;;
    let data := arg_data_of func func_args in
    Ok (fingerprint data, to_json data).

Definition exists_ (self : t) (func : Callable) (args : list value)
      (kwargs : dict value) : result bool :=
    '(fingp, _) <- _get_arg_data func args kwargs ;;
    Ok (BenchmarkDb.contains_fingerprint fingp self).

  (** The text the [except] branch of [run] prints. *)
Definition failure_report (arg_data : json) (e : exn) (console : string)
      : string :=
    let console := print EmptyString console in
    let console := print "Exception while running benchmark." console in
    let console := print "=====================================" console in
    let console := print (yaml_dump arg_data) console in
    let console := print "-------------------------------------" console in
    let console :=
      print ("ERROR: " ++ exc_str e ++ " " ++
             "(<class " ++ quote (exc_type e) ++ ">)") console in
    let console := print (format_exc e) console in
    print "-------------------------------------" console.

  (** [run]: the outcome, the store and the world after the call.  The
      clock advances while [func] runs; what [func] prints goes to the two
      [StringIO] buffers, not to the console. *)
Definition run (self : t) (w : World) (func : Callable)
      (args : list value) (kwargs : dict value)
      : result unit * t * World :=
    match _get_arg_data func args kwargs with
    | Raise e => (Raise e, self, w)
    | Ok (fingp, arg_data) =>
        let timestamp := isoformat (clock w) in
        let timer := clock w in
        let b := body func w args kwargs in
        let stdout := printed_out b in
        let stderr := printed_err b in
        let w := {| clock := clock w + elapsed b;
                    console_out := console_out w;
                    console_err := console_err w;
                    calls := S (calls w) |} in
        match outcome b with
        | Ok result =>
            let runtime := clock w - timer in
            let self :=
              BenchmarkDb.add fingp arg_data
                (VDict [("result", result);
                        ("timestamp", VStr timestamp);
                        ("runtime", VFloat runtime);
                        ("stdout", VStr stdout);
                        ("stderr", VStr stderr)]) self in
            (Ok tt, self,
             {| clock := clock w;
                console_out := console_out w ++ ".";
                console_err := console_err w;
                calls := calls w |})
        | Raise e =>
            if exc_is_Exception e then
              (Raise e, self,
               {| clock := clock w;
                  console_out := failure_report arg_data e (console_out w);
                  console_err := console_err w;
                  calls := calls w |})
            else (Raise e, self, w)
        end
    end.

Definition add (self : t) (w : World) (func : Callable)
      (args : list value) (kwargs : dict value)
      : result unit * t * World :=
    match exists_ self func args kwargs with
    | Raise e => (Raise e, self, w)
    | Ok true => (Ok tt, self, w)
    | Ok false => run self w func args kwargs
    end.

Definition insert (self : t) (entry : Entry) : t :=
    BenchmarkDb.insert entry self.

Definition compress (self : t) : t := BenchmarkDb.compress self.

  (** [__iter__]: every Entry of the store, each copied with [dict.copy]
      (the copy is the same value; what it shares with the original is the
      subject of [Module Objects] below). *)
Definition iter (self : t) : list Entry := BenchmarkDb.scan self.

Definition delete (self : t) : t := BenchmarkDb.delete self.

Definition front (self : t) : option Entry := BenchmarkDb.front self.

Definition delete_if (self : t) (condition : Entry -> bool) : t :=
    let benchmark_copy :=
      fold_left (fun cp entry =>
                   if negb (condition entry) then insert cp entry else cp)
                (iter self) BenchmarkDb.empty in
    let self := delete self in
    let self := fold_left insert (iter benchmark_copy) self in
    compress self.

Definition repair (self : t) : t := delete_if self (fun data => false).
End Methods.
End Benchmark.

(** ** Value equality and the variations of a call *)

(** Two values are equal up to the insertion order of dictionaries and the
    representation of numbers: [{"a": 1, "b": 2} == {"b": 2, "a": 1}] and
    [1 == 1.0]. *)
Definition number (v : value) : option Q :=
  match v with
  | VInt z => Some (inject_Z z)
  | VFloat q => Some q
  | _ => None
  end.

Inductive value_equal : value -> value -> Prop :=
| ve_same v : value_equal v v
| ve_number v1 v2 q1 q2 :
    number v1 = Some q1 -> number v2 = Some q2 -> q1 == q2 ->
    value_equal v1 v2
| ve_list l1 l2 :
    values_equal l1 l2 -> value_equal (VList l1) (VList l2)
| ve_tuple l1 l2 :
    values_equal l1 l2 -> value_equal (VTuple l1) (VTuple l2)
| ve_dict d1 d d2 :
    NoDup (Dict.keys d1) -> Permutation d1 d -> items_equal d d2 ->
    value_equal (VDict d1) (VDict d2)
with values_equal : list value -> list value -> Prop :=
| ves_nil : values_equal [] []
| ves_cons v1 v2 l1 l2 :
    value_equal v1 v2 -> values_equal l1 l2 ->
    values_equal (v1 :: l1) (v2 :: l2)
with items_equal : dict value -> dict value -> Prop :=
| ie_nil : items_equal [] []
| ie_cons k v1 v2 d1 d2 :
    value_equal v1 v2 -> items_equal d1 d2 ->
    items_equal ((k, v1) :: d1) ((k, v2) :: d2).

Scheme value_equal_ind' := Induction for value_equal Sort Prop
  with values_equal_ind' := Induction for values_equal Sort Prop
  with items_equal_ind' := Induction for items_equal Sort Prop.
Combined Scheme value_equal_mutind
  from value_equal_ind', values_equal_ind', items_equal_ind'.

(** A call: the positional arguments and the keyword arguments, the latter in
    the order they are written. *)
Definition call : Type := list value * dict value.

(** The ways the claim lets two calls of one callable differ while they
    supply the same parameters: the keyword arguments are written in another
    order; the last positional argument is passed by keyword instead; a
    parameter left to its default is supplied explicitly, with the value of
    the default, by keyword or, for the next positional parameter, by
    position. *)
Inductive call_variation (sig : Signature) : call -> call -> Prop :=
| keywords_reordered (args : list value) (kwargs kwargs' : dict value) :
    NoDup (Dict.keys kwargs) ->
    Permutation kwargs kwargs' ->
    call_variation sig (args, kwargs) (args, kwargs')
| positional_as_keyword (args : list value) v (kwargs : dict value) p :
    nth_error sig (List.length args) = Some p ->
    pkind p = POSITIONAL_OR_KEYWORD ->
    ~ In (name p) (Dict.keys kwargs) ->
    call_variation sig (args ++ [v], kwargs) (args, kwargs ++ [(name p, v)])
| default_supplied (args : list value) (kwargs : dict value) p d i :
    nth_error sig i = Some p ->
    default p = Some d ->
    (pkind p = POSITIONAL_OR_KEYWORD /\ (List.length args <= i)%nat)
    \/ pkind p = KEYWORD_ONLY ->
    ~ In (name p) (Dict.keys kwargs) ->
    call_variation sig (args, kwargs) (args, kwargs ++ [(name p, d)])
| default_supplied_by_position (args : list value) (kwargs : dict value) p d :
    nth_error sig (List.length args) = Some p ->
    default p = Some d ->
    pkind p = POSITIONAL_ONLY \/ pkind p = POSITIONAL_OR_KEYWORD ->
    ~ In (name p) (Dict.keys kwargs) ->
    call_variation sig (args, kwargs) (args ++ [d], kwargs).

(** A call that [exists], [run] and [add] can receive.  Their own
    parameters are [self] and [func]: a keyword argument of one of these
    names is taken for the parameter of the method (Python raises
    [TypeError], multiple values for the argument) and never arrives in
    [kwargs]. *)
Definition receivable (c : call) : Prop :=
  ~ In "self" (Dict.keys (snd c)) /\ ~ In "func" (Dict.keys (snd c)).

(** Calls that supply the same parameters: related by a chain of
    variations between receivable calls, in either direction. *)
Definition same_parameters (sig : Signature) : call -> call -> Prop :=
  clos_refl_sym_trans call
    (fun c1 c2 => receivable c1 /\ receivable c2 /\ call_variation sig c1 c2).

(** Two outcomes of [_get_arg_data] carry the same fingerprint: both calls
    bind and the fingerprints are equal, or neither binds. *)
Definition same_fingerprint (r1 r2 : result (string * json)) : Prop :=
  match r1, r2 with
  | Ok (fingp1, _), Ok (fingp2, _) => fingp1 = fingp2
  | Raise _, Raise _ => True
  | _, _ => False
  end.

(** Two outcomes agree: both are results, related by [R], or both are
    exceptions. *)
Definition result_rel {A : Type} (R : A -> A -> Prop) (r1 r2 : result A)
    : Prop :=
  match r1, r2 with
  | Ok a1, Ok a2 => R a1 a2
  | Raise _, Raise _ => True
  | _, _ => False
  end.

(** [_bind] from a point of the parameter list on, with the arguments bound
    so far: the positional loop, the keyword loop, the leftover keywords. *)
Definition bind_keywords_then (parameters : Signature)
    (kwargs arguments : dict value) : result (dict value) :=
  '(arguments, kwargs, kwargs_param) <-
     bind_keywords parameters kwargs arguments None ;;
  bind_leftover arguments kwargs kwargs_param.

Definition bind_from (parameters : Signature) (args : list value)
    (kwargs arguments : dict value) : result (dict value) :=
  '(arguments, parameters) <-
     bind_positional parameters args kwargs arguments ;;
  bind_keywords_then parameters kwargs arguments.

(** [s] is [l] with some elements left out, the order kept. *)
Inductive subseq {A : Type} : list A -> list A -> Prop :=
| subseq_nil : subseq [] []
| subseq_skip x s l : subseq s l -> subseq s (x :: l)
| subseq_keep x s l : subseq s l -> subseq (x :: s) (x :: l).

Definition has_default (p : Param) : bool :=
  match default p with Some _ => true | None => false end.

(** The order of the merged arguments: the parameters that have a default,
    then the others, each group in declaration order. *)
Definition merged_order (sig : Signature) : list string :=
  map name (filter has_default sig)
  ++ map name (filter (fun p => negb (has_default p)) sig).

(** The arguments that identify a call: the merged arguments without those
    whose name begins with an underscore. *)
Definition identifying (func_args : dict value) : value :=
  VDict (Dict.filter_keys (fun key => negb (startswith_underscore key))
                          func_args).

(** ** Objects in memory

    The entries a scan yields are Python dictionaries, objects in the memory
    of the process; nested dictionaries and lists are objects of their own,
    referred to by their location.  [Benchmark.__iter__] hands out
    [entry.copy()], a copy of the top-level dictionary that shares the
    nested objects with the dictionary it copies. *)
Module Objects.
Definition loc := nat.

Inductive atom : Type :=
  | ANull
  | ABool (b : bool)
  | ANum (q : Q)
  | AStr (s : string).

Inductive hval : Type :=
  | HAtom (a : atom)
  | HRef (l : loc).

Inductive obj : Type :=
  | ODict (items : list (string * hval))
  | OList (items : list hval).

  (** The memory: the object at location [l] is the [l]-th of the list. *)
Definition heap := list obj.

Definition vals (o : obj) : list hval :=
    match o with
    | ODict items => map snd items
    | OList items => items
    end.

Definition alloc (o : obj) (h : heap) : hval * heap :=
    (HRef (List.length h), h ++ [o]).

Definition load_list (load : json -> heap -> hval * heap)
      : list json -> heap -> list hval * heap :=
    fix go (l : list json) (h : heap) : list hval * heap :=
      match l with
      | [] => ([], h)
      | j :: l' =>
          let '(v, h) := load j h in
          let '(vs, h) := go l' h in
          (v :: vs, h)
      end.

Definition load_items (load : json -> heap -> hval * heap)
      : list (string * json) -> heap -> list (string * hval) * heap :=
    fix go (d : list (string * json)) (h : heap)
        : list (string * hval) * heap :=
      match d with
      | [] => ([], h)
      | (k, j) :: d' =>
          let '(v, h) := load j h in
          let '(kvs, h) := go d' h in
          ((k, v) :: kvs, h)
      end.

  (** Modelled from the spec: how a scan of the absent [BenchmarkDb] turns a
      stored record into an object.  Section 4.3 has [iterate] produce each
      Entry as an independent copy and section 6 has the Entries persisted
      at the location of the store: a scan reads the record and builds new
      objects for it. *)
Fixpoint load (j : json) (h : heap) : hval * heap :=
    match j with
    | JNull => (HAtom ANull, h)
    | JBool b => (HAtom (ABool b), h)
    | JNum q => (HAtom (ANum q), h)
    | JStr s => (HAtom (AStr s), h)
    | JList l =>
        let '(vs, h) := load_list load l h in
        alloc (OList vs) h
    | JDict d =>
        let '(kvs, h) := load_items load d h in
        alloc (ODict kvs) h
    end.

  (** An Entry as the dictionary a scan yields. *)
Definition entry_json (e : Entry) : json :=
    JDict [("fingerprint", JStr (fingerprint_of e));
           ("parameters", parameters e);
           ("result", result_of e)].

  (** [dict.copy()]: a new dictionary with the same items. *)
Definition copy (v : hval) (h : heap) : hval * heap :=
    match v with
    | HRef l =>
        match nth_error h l with
        | Some (ODict items) => alloc (ODict items) h
        | _ => (v, h)
        end
    | HAtom _ => (v, h)
    end.

  (** One step of [Benchmark.__iter__]: the scan of [self._db] produces
      [entry], and [entry.copy()] is yielded. *)
Definition yield_entry (e : Entry) (h : heap) : hval * heap :=
    let '(entry, h) := load (entry_json e) h in
    copy entry h.

  (** The whole iteration, when the consumer does nothing in between. *)
Fixpoint yield_all (es : list Entry) (h : heap) : list hval * heap :=
    match es with
    | [] => ([], h)
    | e :: es' =>
        let '(v, h) := yield_entry e h in
        let '(vs, h) := yield_all es' h in
        (v :: vs, h)
    end.

Definition traverse {A B : Type} (f : A -> option B)
      : list A -> option (list B) :=
    fix go (l : list A) : option (list B) :=
      match l with
      | [] => Some []
      | x :: l' =>
          match f x, go l' with
          | Some y, Some ys => Some (y :: ys)
          | _, _ => None
          end
      end.

Definition json_of_atom (a : atom) : json :=
    match a with
    | ANull => JNull
    | ABool b => JBool b
    | ANum q => JNum q
    | AStr s => JStr s
    end.

  (** The value of an object, read to the given depth. *)
Fixpoint read (depth : nat) (h : heap) (v : hval) : option json :=
    match v with
    | HAtom a => Some (json_of_atom a)
    | HRef l =>
        match depth with
        | O => None
        | S depth' =>
            match nth_error h l with
            | Some (OList items) =>
                option_map JList (traverse (read depth' h) items)
            | Some (ODict items) =>
                option_map JDict
                  (traverse (fun kv : string * hval =>
                               option_map (pair (fst kv))
                                          (read depth' h (snd kv)))
                            items)
            | None => None
            end
        end
    end.


  (** A mutation: the object at a location gets a new content ([d[k] = v],
      [del d[k]], [l.append(v)], ... at that object). *)
Fixpoint write (l : loc) (o : obj) (h : heap) : heap :=
    match h, l with
    | [], _ => []
    | _ :: h', O => o :: h'
    | x :: h', S l' => x :: write l' o h'
    end.

  (** A value that refers to no object older than [n]. *)
Definition fresh (n : nat) (v : hval) : Prop :=
    match v with
    | HRef l => (n <= l)%nat
    | HAtom _ => True
    end.

Definition obj_fresh (n : nat) (o : obj) : Prop := Forall (fresh n) (vals o).

  (** What loading a tree does: the heap is extended, by objects that refer
      to new objects only, and the value reads back as the tree. *)
Definition loaded (h : heap) (j : json) (r : hval * heap) : Prop :=
    exists ext,
      snd r = h ++ ext
      /\ fresh (List.length h) (fst r)
      /\ Forall (obj_fresh (List.length h)) ext
      /\ exists n, read n (snd r) (fst r) = Some j.

Definition loaded_list (h : heap) (l : list json) (r : list hval * heap)
      : Prop :=
    exists ext,
      snd r = h ++ ext
      /\ Forall (fresh (List.length h)) (fst r)
      /\ Forall (obj_fresh (List.length h)) ext
      /\ exists n, traverse (read n (snd r)) (fst r) = Some l.

Definition loaded_items (h : heap) (d : list (string * json))
      (r : list (string * hval) * heap) : Prop :=
    exists ext,
      snd r = h ++ ext
      /\ Forall (fresh (List.length h)) (map snd (fst r))
      /\ Forall (obj_fresh (List.length h)) ext
      /\ exists n,
           traverse (fun kv : string * hval =>
                       option_map (pair (fst kv)) (read n (snd r) (snd kv)))
                    (fst r)
           = Some d.

End Objects.

(** ** A concrete choice of the externals, to run the model on examples *)
Module Demo.
  #[local] Open Scope string_scope.

Definition dq : string := String (ascii_of_nat 34) EmptyString.

Definition string_of_Z (z : Z) : string :=
    NilZero.string_of_int (Z.to_int z).

Definition string_of_Q (q : Q) : string :=
    string_of_Z (Qnum q) ++ "/" ++ string_of_Z (Zpos (Qden q)).

Definition join (sep : string) (l : list string) : string :=
    match l with
    | [] => EmptyString
    | x :: l' => fold_left (fun acc y => acc ++ sep ++ y) l' x
    end.

Fixpoint show (j : json) : string :=
    match j with
    | JNull => "null"
    | JBool true => "true"
    | JBool false => "false"
    | JNum q => string_of_Q q
    | JStr s => dq ++ s ++ dq
    | JList l => "[" ++ join ", " (map show l) ++ "]"
    | JDict d =>
        "{" ++ join ", " (map (fun '(k, x) => dq ++ k ++ dq ++ ": " ++ show x) d)
            ++ "}"
    end.

#[export] Instance externals : Externals := {|
    render := show;
    hash := fun s => s;
    fallback_tag := fun repr => "<" ++ repr ++ ">";
    yaml_dump := show;
    isoformat := string_of_Q;
    format_exc := fun e =>
      "Traceback (most recent call last): " ++ exc_type e ++ ": " ++ exc_str e
  |}.

  (** The callable of the class docstring:
      [def f(x, _test=2, default="default"): return {"r1": x, "r2": "test"}],
      printing [x] and taking one second. *)
Definition f_sig : Signature :=
    [ mkParam "x" POSITIONAL_OR_KEYWORD None;
      mkParam "_test" POSITIONAL_OR_KEYWORD (Some (VInt 2));
      mkParam "default" POSITIONAL_OR_KEYWORD (Some (VStr "default")) ].

Definition arg_x (args : list value) (kwargs : dict value) : value :=
    match args with
    | x :: _ => x
    | [] => match Dict.get "x" kwargs with Some x => x | None => VNone end
    end.

Definition f : Callable :=
    {| __name__ := "f";
       signature := f_sig;
       body := fun _ args kwargs =>
         {| printed_out := "x";
            printed_err := EmptyString;
            elapsed := 1;
            outcome := Ok (VDict [("r1", arg_x args kwargs);
                                  ("r2", VStr "test")]) |} |}.

  (** A callable with the signature of [f] that fails:
      [def failing(x, _test=2, default="default"): raise ValueError("boom")]. *)
Definition ValueError (msg : string) : exn :=
    {| exc_type := "ValueError"; exc_str := msg; exc_is_Exception := true |}.

Definition failing : Callable :=
    {| __name__ := "failing";
       signature := f_sig;
       body := fun _ _ _ =>
         {| printed_out := "about to fail";
            printed_err := EmptyString;
            elapsed := 1;
            outcome := Raise (ValueError "boom") |} |}.

Definition w0 : World :=
    {| clock := 0; console_out := EmptyString; console_err := EmptyString; calls := 0 |}.

(** A callable that ends the process:
    [def exiting(x, _test=2, default="default"): sys.exit(1)].
    [SystemExit] derives from [BaseException], not from [Exception]. *)
Definition SystemExit (code : string) : exn :=
  {| exc_type := "SystemExit"; exc_str := code; exc_is_Exception := false |}.

Definition exiting : Callable :=
  {| __name__ := "exiting";
     signature := f_sig;
     body := fun _ _ _ =>
       {| printed_out := EmptyString;
          printed_err := EmptyString;
          elapsed := 1;
          outcome := Raise (SystemExit "1") |} |}.

(** Another callable named [f], with the signature of [f] and another
    body: [def f(x, _test=2, default="default"): return None]. *)
Definition f_other : Callable :=
  {| __name__ := "f";
     signature := f_sig;
     body := fun _ _ _ =>
       {| printed_out := EmptyString;
          printed_err := EmptyString;
          elapsed := 5;
          outcome := Ok VNone |} |}.

(** A callable whose second parameter is positional-only and has a
    default: [def h(a, b=2, /): return None]. *)
Definition h_sig : Signature :=
  [ mkParam "a" POSITIONAL_ONLY None;
    mkParam "b" POSITIONAL_ONLY (Some (VInt 2)) ].

Definition h : Callable :=
  {| __name__ := "h";
     signature := h_sig;
     body := fun _ _ _ =>
       {| printed_out := EmptyString;
          printed_err := EmptyString;
          elapsed := 1;
          outcome := Ok VNone |} |}.

(** The merged arguments of [f(1)] and of [f(1, _test=None)], and of
    [failing(3)]. *)
Definition merged_1 : dict value :=
  [("_test", VInt 2); ("default", VStr "default"); ("x", VInt 1)].

Definition merged_1_test_none : dict value :=
  [("_test", VNone); ("default", VStr "default"); ("x", VInt 1)].

Definition merged_3 : dict value :=
  [("_test", VInt 2); ("default", VStr "default"); ("x", VInt 3)].

(** The store and the world after [add(f, 1)] on an empty store. *)
Definition after_add : Benchmark.t * World :=
  let '(_, self, w) := Benchmark.add BenchmarkDb.empty w0 f [VInt 1] [] in
  (self, w).

(** An Entry. *)
Definition entry_1 : Entry :=
  {| fingerprint_of := "0af3";
     parameters := JDict [("func", JStr "f"); ("args", JDict [("x", JNum 1)])];
     result_of := JDict [("result", JDict [("r1", JNum 1)]);
                         ("stdout", JStr "x")] |}.

(** A memory that holds the dictionary of [entry_1], at location 4, with
    the nested dictionaries [parameters] at 1, its [args] at 0, [result] at
    3 and its [result] at 2: what a scan of [self._db] hands to the loop of
    [__iter__] as [entry]. *)
Definition memory_1 : Objects.heap :=
  [ Objects.ODict [("x", Objects.HAtom (Objects.ANum 1))];
    Objects.ODict [("func", Objects.HAtom (Objects.AStr "f"));
                   ("args", Objects.HRef 0%nat)];
    Objects.ODict [("r1", Objects.HAtom (Objects.ANum 1))];
    Objects.ODict [("result", Objects.HRef 2%nat);
                   ("stdout", Objects.HAtom (Objects.AStr "x"))];
    Objects.ODict [("fingerprint", Objects.HAtom (Objects.AStr "0af3"));
                   ("parameters", Objects.HRef 1%nat);
                   ("result", Objects.HRef 3%nat)] ].
End Demo.

(** ** The scenario of the specification for [delete_if] *)
Section Scenario.
Context `{Externals}.
Import Benchmark.

(** [entry["result"]["result"]["r1"] > 5], false when the path is absent. *)
Definition r1_above_5 (entry : Entry) : bool :=
  match result_of entry with
  | JDict d =>
      match Dict.get "result" d with
      | Some (JDict payload) =>
          match Dict.get "r1" payload with
          | Some (JNum q) => negb (Qle_bool q 5)
          | _ => false
          end
      | _ => false
      end
  | _ => false
  end.

(** [def g(x): return {"r1": x}] *)
Definition returns_r1 : Callable :=
  {| __name__ := "g";
     signature := [mkParam "x" POSITIONAL_OR_KEYWORD None];
     body := fun _ args _ =>
       {| printed_out := EmptyString;
          printed_err := EmptyString;
          elapsed := 0;
          outcome := Ok (VDict [("r1", hd VNone args)]) |} |}.

Definition r1_of (entry : Entry) : option json :=
  match result_of entry with
  | JDict d =>
      match Dict.get "result" d with
      | Some (JDict payload) => Dict.get "r1" payload
      | _ => None
      end
  | _ => None
  end.

(** The store after [run(g, 1)], [run(g, 6)], [run(g, 10)]. *)
Definition three_entries (w : World) : t :=
  let '(_, self, w) := run BenchmarkDb.empty w returns_r1 [VInt 1] [] in
  let '(_, self, w) := run self w returns_r1 [VInt 6] [] in
  let '(_, self, w) := run self w returns_r1 [VInt 10] [] in
  self.

End Scenario.

(** ** Auxiliary predicates of the proofs *)

Definition key_lt {A : Type} (a b : string * A) : Prop :=
  String_as_OT.lt (fst a) (fst b).

Definition canon_item `{Externals} (kx : string * value) : string * json :=
  let '(k, x) := kx in (k, canonical (to_json x)).

Definition keywords_agree
    (r1 r2 : dict value * dict value * option Param) : Prop :=
  let '(a1, k1, p1) := r1 in
  let '(a2, k2, p2) := r2 in
  a1 = a2 /\ p1 = p2 /\ Permutation k1 k2 /\ NoDup (Dict.keys k1).

(** [a2] is [a1] with the item [(n, d)] put in somewhere. *)
Definition inserted (n : string) (d : value) (a1 a2 : dict value) : Prop :=
  exists x y, a1 = x ++ y /\ a2 = x ++ (n, d) :: y /\ ~ In n (Dict.keys x).

Definition keywords_inserted (n : string) (d : value)
    (r1 r2 : dict value * dict value * option Param) : Prop :=
  let '(a1, k1, p1) := r1 in
  let '(a2, k2, p2) := r2 in
  inserted n d a1 a2 /\ k1 = k2 /\ p1 = p2.

Definition default_step (acc : dict value) (p : Param) : dict value :=
  match default p with
  | Some d => Dict.set (name p) d acc
  | None => acc
  end.

Definition fresh_for (parameters : Signature) (arguments : dict value) : Prop :=
  forall n, In n (map name parameters) -> ~ In n (Dict.keys arguments).

(** Every named parameter of [ps] is bound in [a] or has a default. *)
Definition bound_or_default (a : dict value) (ps : Signature) : Prop :=
  forall p, In p ps -> variadic p = false ->
            In (name p) (Dict.keys a) \/ has_default p = true.

(** A value that refers to an object of the range [lo, hi) or to none; an
    object all of whose items are such. *)
Definition within (lo hi : nat) (v : Objects.hval) : Prop :=
  match v with
  | Objects.HRef l => (lo <= l < hi)%nat
  | Objects.HAtom _ => True
  end.

Definition obj_within (lo hi : nat) (o : Objects.obj) : Prop :=
  Forall (within lo hi) (Objects.vals o).

(** The heap [h'] is [h] with objects added that refer to added objects
    only. *)
Definition grown_closed (h h' : Objects.heap) : Prop :=
  exists ext, h' = h ++ ext
              /\ Forall (obj_within (List.length h) (List.length h')) ext.

(** Two heaps hold the same objects in the range [lo, hi). *)
Definition agree_on (lo hi : nat) (h h' : Objects.heap) : Prop :=
  forall i, (lo <= i < hi)%nat -> nth_error h' i = nth_error h i.

(** Loading a tree adds objects that refer to added objects only. *)
Definition load_closed (j : json) : Prop :=
  forall h, grown_closed h (snd (Objects.load j h))
            /\ within (List.length h)
                      (List.length (snd (Objects.load j h)))
                      (fst (Objects.load j h)).



(** * Properties *)

(** ** The store model *)
Module DbFacts.
Import BenchmarkDb.

Lemma scan_app (db1 db2 : t) : scan (db1 ++ db2) = scan db1 ++ scan db2.
  Proof. unfold scan. apply flat_map_app. Qed.

Lemma scan_insert (e : Entry) (db : t) : scan (insert e db) = scan db ++ [e].
  Proof. unfold insert. rewrite scan_app. reflexivity. Qed.

Lemma whole_map_Whole (es : list Entry) : flat_map whole (map Whole es) = es.
  Proof. induction es as [|e es IH]; simpl; [reflexivity | now rewrite IH]. Qed.

Lemma scan_compress (db : t) : scan (compress db) = scan db.
  Proof.
    unfold compress. destruct (scan db) as [|e es] eqn:E; [reflexivity|].
    unfold scan. simpl flat_map at 1. rewrite app_nil_r.
    change (flat_map whole (map Whole (e :: es)) = e :: es).
    apply whole_map_Whole.
  Qed.

Lemma scan_fold_insert (es : list Entry) (db : t) :
    scan (fold_left (fun d e => insert e d) es db) = scan db ++ es.
  Proof.
    revert db. induction es as [|e es IH]; intros db; simpl.
    - now rewrite app_nil_r.
    - rewrite IH, scan_insert, <- app_assoc. reflexivity.
  Qed.

Lemma scan_fold_insert_unless (c : Entry -> bool) (es : list Entry) (db : t) :
    scan (fold_left (fun d e => if negb (c e) then insert e d else d) es db)
    = scan db ++ filter (fun e => negb (c e)) es.
  Proof.
    revert db. induction es as [|e es IH]; intros db; simpl.
    - now rewrite app_nil_r.
    - rewrite IH. destruct (c e); simpl; [reflexivity|].
      rewrite scan_insert, <- app_assoc. reflexivity.
  Qed.

Lemma contains_insert (e : Entry) (db : t) :
    contains_fingerprint (fingerprint_of e) (insert e db) = true.
  Proof.
    unfold contains_fingerprint. rewrite scan_insert, existsb_app. simpl.
    rewrite String.eqb_refl. now rewrite orb_true_r.
  Qed.

Lemma contains_insert_mono (fingp : string) (e : Entry) (db : t) :
    contains_fingerprint fingp db = true ->
    contains_fingerprint fingp (insert e db) = true.
  Proof.
    unfold contains_fingerprint. rewrite scan_insert, existsb_app.
    intros ->. reflexivity.
  Qed.

Lemma all_whole_compress (db : t) : all_whole (compress db).
  Proof.
    unfold compress, all_whole. destruct (scan db) as [|e es]; constructor.
    - apply Forall_forall. intros s Hs. apply in_map_iff in Hs.
      destruct Hs as [x [<- _]]. discriminate.
    - constructor.
  Qed.
End DbFacts.

Lemma append_assoc (a b c : string) : ((a ++ b) ++ c = a ++ (b ++ c))%string.
Proof. induction a as [|x a IH]; simpl; [reflexivity | now rewrite IH]. Qed.

Section RunProperties.
Context `{Externals}.
Import Benchmark.

  (** The report of a failure is appended to the console, and quotes the
      parameter record and the trace. *)
Lemma failure_report_text (arg_data : json) (e : exn) (console : string) :
    failure_report arg_data e console =
    (console ++ nl ++ "Exception while running benchmark." ++ nl
      ++ "=====================================" ++ nl
      ++ yaml_dump arg_data ++ nl
      ++ "-------------------------------------" ++ nl
      ++ ("ERROR: " ++ exc_str e ++ " " ++
          "(<class " ++ quote (exc_type e) ++ ">)") ++ nl
      ++ format_exc e ++ nl
      ++ "-------------------------------------" ++ nl)%string.
  Proof.
    unfold failure_report, print.
    repeat rewrite append_assoc. reflexivity.
  Qed.

  (** An exception that is not an [Exception] passes through [run] without a
      report; the store is untouched all the same. *)
Lemma run_base_exception (self : t) (w : World) (func : Callable)
      (args : list value) (kwargs : dict value) (fingp : string)
      (arg_data : json) (e : exn) :
    _get_arg_data func args kwargs = Ok (fingp, arg_data) ->
    outcome (body func w args kwargs) = Raise e ->
    exc_is_Exception e = false ->
    exists w', run self w func args kwargs = (Raise e, self, w')
               /\ console_out w' = console_out w.
  Proof.
    intros Hd Ho He. unfold run. rewrite Hd, Ho, He.
    eexists. split; reflexivity.
  Qed.

  (** C1.  When the callable raises an exception that is an [Exception]
    during [run], the same exception is raised to the caller, the store is
    exactly what it was (so an [exists] that was false is still false), no
    Entry has been added, and the console has received the report: the dump
    of the parameter record and the formatted trace. *)
Theorem run_failure_leaves_store (self : t) (w : World) (func : Callable)
      (args : list value) (kwargs : dict value) (fingp : string)
      (arg_data : json) (e : exn) :
    _get_arg_data func args kwargs = Ok (fingp, arg_data) ->
    outcome (body func w args kwargs) = Raise e ->
    exc_is_Exception e = true ->
    let '(r, self', w') := run self w func args kwargs in
    r = Raise e
    /\ self' = self
    /\ iter self' = iter self
    /\ (exists_ self func args kwargs = Ok false ->
        exists_ self' func args kwargs = Ok false)
    /\ console_out w' =
       (console_out w ++ nl ++ "Exception while running benchmark." ++ nl
         ++ "=====================================" ++ nl
         ++ yaml_dump arg_data ++ nl
         ++ "-------------------------------------" ++ nl
         ++ ("ERROR: " ++ exc_str e ++ " " ++
             "(<class " ++ quote (exc_type e) ++ ">)") ++ nl
         ++ format_exc e ++ nl
         ++ "-------------------------------------" ++ nl)%string
    /\ console_err w' = console_err w.
  Proof.
    intros Hd Ho He. unfold run. rewrite Hd, Ho, He.
    do 3 (split; [reflexivity|]). split; [exact (fun Hex => Hex)|].
    split; [apply failure_report_text | reflexivity].
  Qed.

  (** C9.  When the arguments do not bind to the signature of the callable,
      [exists], [run] and [add] raise the [TypeError] of [bind]; the store,
      the console and the count of calls are what they were: the callable
      was not called and the store was not touched. *)
Theorem unbound_call_raises (self : t) (w : World) (func : Callable)
      (args : list value) (kwargs : dict value) (e : exn) :
    bind (signature func) args kwargs = Raise e ->
    exists_ self func args kwargs = Raise e
    /\ run self w func args kwargs = (Raise e, self, w)
    /\ add self w func args kwargs = (Raise e, self, w).
  Proof.
    intros Hb.
    assert (Hd : _get_arg_data func args kwargs = Raise e).
    { unfold _get_arg_data, func_args. rewrite Hb. reflexivity. }
    assert (He : exists_ self func args kwargs = Raise e).
    { unfold exists_. rewrite Hd. reflexivity. }
    split; [exact He|]. split.
    - unfold run. rewrite Hd. reflexivity.
    - unfold add. rewrite He. reflexivity.
  Qed.

  (** C7.  After a successful [run] the store holds one more Entry, whose
      result record is the serialized return value together with the
      timestamp read before the call, the time the call took, and the text
      the call wrote to standard output and standard error; of that text
      nothing reached the console, which only received the progress dot. *)
Theorem run_success_record (self : t) (w : World) (func : Callable)
      (args : list value) (kwargs : dict value) (fingp : string)
      (arg_data : json) (v : value) :
    _get_arg_data func args kwargs = Ok (fingp, arg_data) ->
    outcome (body func w args kwargs) = Ok v ->
    let b := body func w args kwargs in
    let '(r, self', w') := run self w func args kwargs in
    exists runtime : Q,
      runtime == elapsed b
      /\ r = Ok tt
      /\ iter self' = iter self ++
           [ {| fingerprint_of := fingp;
                parameters := arg_data;
                result_of :=
                  JDict [("result", to_json v);
                         ("timestamp", JStr (isoformat (clock w)));
                         ("runtime", JNum runtime);
                         ("stdout", JStr (printed_out b));
                         ("stderr", JStr (printed_err b))] |} ]
      /\ console_out w' = (console_out w ++ ".")%string
      /\ console_err w' = console_err w
      /\ calls w' = S (calls w).
  Proof.
    intros Hd Ho b. unfold run. rewrite Hd, Ho. fold b.
    exists (clock w + elapsed b - clock w).
    split; [cbn [clock]; ring|]. split; [reflexivity|].
    split; [|repeat split].
    unfold iter, BenchmarkDb.add. rewrite DbFacts.scan_insert. reflexivity.
  Qed.
End RunProperties.

Section Maintenance.
Context `{Externals}.
Import Benchmark.

Lemma iter_delete_if (self : t) (condition : Entry -> bool) :
    iter (delete_if self condition)
    = filter (fun e => negb (condition e)) (iter self).
  Proof.
    unfold delete_if, iter, compress, delete, insert.
    rewrite DbFacts.scan_compress, DbFacts.scan_fold_insert.
    rewrite DbFacts.scan_fold_insert_unless. reflexivity.
  Qed.

  (** C5.  After [delete_if], iterating yields the Entries stored before for
      which the predicate was false, and no others; with Entries whose [r1]
      is 1, 6 and 10 and the predicate [r1 > 5], only the Entry with
      [r1 = 1] is left. *)
Theorem delete_if_keeps_the_rest :
    (forall (self : t) (p : Entry -> bool),
        iter (delete_if self p) = filter (fun e => negb (p e)) (iter self))
    /\ (forall w : World,
          map r1_of (iter (three_entries w))
          = [Some (JNum 1); Some (JNum 6); Some (JNum 10)]
          /\ map r1_of (iter (delete_if (three_entries w) r1_above_5))
             = [Some (JNum 1)]).
  Proof.
    split; [apply iter_delete_if|].
    intros w. rewrite iter_delete_if. split; reflexivity.
  Qed.

  (** C10.  [repair] is [delete_if] with the predicate that is always false;
      iterating after it yields the Entries that a scan could read before
      it, all of them, and what is left of torn writes is gone. *)
Theorem repair_keeps_every_entry (self : t) :
    repair self = delete_if self (fun _ => false)
    /\ iter (repair self) = iter self
    /\ BenchmarkDb.all_whole (repair self).
  Proof.
    split; [reflexivity|]. split.
    - unfold repair. rewrite iter_delete_if.
      induction (iter self) as [|e es IH]; simpl; [reflexivity|].
      f_equal. exact IH.
    - unfold repair, delete_if, compress. apply DbFacts.all_whole_compress.
  Qed.
End Maintenance.

(** ** Sorting the keys of a mapping *)
Section SortFacts.
Context {A : Type}.

Lemma insert_key_perm (kv : string * A) (d : dict A) :
    Permutation (insert_key kv d) (kv :: d).
  Proof.
    induction d as [|kv' d IH]; simpl; [reflexivity|].
    destruct (String.compare (fst kv) (fst kv')); try reflexivity.
    rewrite IH. apply perm_swap.
  Qed.

Lemma sort_keys_perm (d : dict A) : Permutation (sort_keys d) d.
  Proof.
    induction d as [|kv d IH]; simpl; [reflexivity|].
    rewrite insert_key_perm. now constructor.
  Qed.

Lemma compare_Gt_lt (a b : string) :
    String.compare a b = Gt -> String_as_OT.lt b a.
  Proof.
    intros Hc. apply String_as_OT.cmp_lt. unfold String_as_OT.cmp.
    rewrite String_as_OT.cmp_antisym. unfold String_as_OT.cmp.
    rewrite Hc. reflexivity.
  Qed.

Lemma insert_key_sorted (kv : string * A) (d : dict A) :
    StronglySorted key_lt d ->
    ~ In (fst kv) (Dict.keys d) ->
    StronglySorted key_lt (insert_key kv d).
  Proof.
    induction d as [|kv' d IH]; simpl; intros Hs Hn.
    - repeat constructor.
    - inversion Hs as [|? ? Hs' Hall]; subst.
      destruct (String.compare (fst kv) (fst kv')) eqn:Hc.
      + apply String_as_OT.cmp_eq in Hc. exfalso. apply Hn. now left.
      + apply String_as_OT.cmp_lt in Hc.
        constructor; [exact Hs|]. constructor; [exact Hc|].
        eapply Forall_impl; [|exact Hall]. intros x Hx.
        eapply String_as_OT.lt_trans; [exact Hc | exact Hx].
      + constructor.
        * apply IH; [exact Hs'|]. intros Hin. apply Hn. now right.
        * eapply Permutation_Forall.
          -- symmetry. apply insert_key_perm.
          -- constructor; [|exact Hall]. now apply compare_Gt_lt.
  Qed.

Lemma keys_perm (d d' : dict A) :
    Permutation d d' -> Permutation (Dict.keys d) (Dict.keys d').
  Proof. apply Permutation_map. Qed.

Lemma sort_keys_sorted (d : dict A) :
    NoDup (Dict.keys d) -> StronglySorted key_lt (sort_keys d).
  Proof.
    induction d as [|kv d IH]; simpl; intros Hnd; [constructor|].
    inversion Hnd as [|? ? Hn Hnd']; subst.
    apply insert_key_sorted; [now apply IH|].
    intros Hin. apply Hn.
    eapply Permutation_in; [apply keys_perm, sort_keys_perm | exact Hin].
  Qed.

Lemma key_lt_irrefl (a : string * A) : ~ key_lt a a.
  Proof.
    intros Hlt. apply String_as_OT.lt_not_eq in Hlt. apply Hlt. reflexivity.
  Qed.

Lemma sorted_head_least (a b : string * A) (l1 l2 : dict A) :
    StronglySorted key_lt (a :: l1) ->
    StronglySorted key_lt (b :: l2) ->
    Permutation (a :: l1) (b :: l2) ->
    a = b.
  Proof.
    intros H1 H2 Hp.
    inversion H1 as [|? ? _ Ha]; inversion H2 as [|? ? _ Hb]; subst.
    assert (Hin1 : In a (b :: l2)).
    { eapply Permutation_in; [exact Hp | now left]. }
    assert (Hin2 : In b (a :: l1)).
    { eapply Permutation_in; [symmetry; exact Hp | now left]. }
    destruct Hin1 as [->|Hin1]; [reflexivity|].
    destruct Hin2 as [->|Hin2]; [reflexivity|].
    rewrite Forall_forall in Ha, Hb.
    exfalso. apply (@key_lt_irrefl a).
    eapply String_as_OT.lt_trans; [apply Ha, Hin2 | apply Hb, Hin1].
  Qed.

Lemma sorted_perm_unique (l1 l2 : dict A) :
    StronglySorted key_lt l1 ->
    StronglySorted key_lt l2 ->
    Permutation l1 l2 ->
    l1 = l2.
  Proof.
    revert l2. induction l1 as [|a l1 IH]; intros l2 H1 H2 Hp.
    - apply Permutation_nil in Hp. now subst.
    - destruct l2 as [|b l2].
      + symmetry in Hp. apply Permutation_nil in Hp. discriminate.
      + assert (a = b) by (eapply sorted_head_least; eassumption). subst b.
        f_equal. apply IH.
        * now inversion H1.
        * now inversion H2.
        * eapply Permutation_cons_inv. exact Hp.
  Qed.

  (** The sorted form does not depend on the insertion order. *)
Lemma sort_keys_permutation (d d' : dict A) :
    NoDup (Dict.keys d) -> Permutation d d' -> sort_keys d = sort_keys d'.
  Proof.
    intros Hnd Hp. apply sorted_perm_unique.
    - now apply sort_keys_sorted.
    - apply sort_keys_sorted.
      eapply Permutation_NoDup; [apply keys_perm; exact Hp | exact Hnd].
    - rewrite !sort_keys_perm. exact Hp.
  Qed.
End SortFacts.

(** ** Equal values have one canonical form, hence one fingerprint *)
Section FingerprintFacts.
Context `{Externals}.

Lemma canonical_items (d : dict value) :
    map (fun '(k, x) => (k, canonical x)) (map (fun '(k, x) => (k, to_json x)) d)
    = map canon_item d.
  Proof.
    rewrite map_map. apply map_ext. now intros [k x].
  Qed.

Lemma canonical_values (l : list value) :
    map canonical (map to_json l) = map (fun x => canonical (to_json x)) l.
  Proof. apply map_map. Qed.

Lemma keys_canon_item (d : dict value) :
    Dict.keys (map canon_item d) = Dict.keys d.
  Proof.
    unfold Dict.keys. rewrite map_map. apply map_ext. now intros [k x].
  Qed.

Lemma canonical_value_equal :
    (forall v1 v2, value_equal v1 v2 ->
                   canonical (to_json v1) = canonical (to_json v2))
    /\ (forall l1 l2, values_equal l1 l2 ->
                      map (fun x => canonical (to_json x)) l1
                      = map (fun x => canonical (to_json x)) l2)
    /\ (forall d1 d2, items_equal d1 d2 ->
                      map canon_item d1 = map canon_item d2).
  Proof.
    apply value_equal_mutind.
    - reflexivity.
    - intros v1 v2 q1 q2 H1 H2 Hq.
      destruct v1; try discriminate; destruct v2; try discriminate;
        cbn [number] in H1, H2; injection H1 as <-; injection H2 as <-;
        cbn [to_json canonical]; f_equal; now apply Qred_complete.
    - intros l1 l2 _ IH. simpl. rewrite !canonical_values. now f_equal.
    - intros l1 l2 _ IH. simpl. rewrite !canonical_values. now f_equal.
    - intros d1 d d2 Hnd Hp _ IH. simpl. rewrite !canonical_items.
      f_equal. rewrite <- IH. apply sort_keys_permutation.
      + now rewrite keys_canon_item.
      + now apply Permutation_map.
    - reflexivity.
    - intros v1 v2 l1 l2 _ IHv _ IHl. simpl. now rewrite IHv, IHl.
    - reflexivity.
    - intros k v1 v2 d1 d2 _ IHv _ IHd. simpl. now rewrite IHv, IHd.
  Qed.

Lemma fingerprint_value_equal (v1 v2 : value) :
    value_equal v1 v2 -> fingerprint v1 = fingerprint v2.
  Proof.
    intros Hv. unfold fingerprint.
    now rewrite (proj1 canonical_value_equal _ _ Hv).
  Qed.
End FingerprintFacts.

(** ** Dictionaries *)
Module DictFacts.
Section Facts.
Context {A : Type}.
Implicit Types (d : dict A) (k n : string) (v : A).

Lemma get_None k d : Dict.get k d = None <-> ~ In k (Dict.keys d).
  Proof.
    induction d as [|[k' v'] d IH]; simpl; [tauto|].
    destruct (String.eqb_spec k' k) as [->|Hne].
    - split; [discriminate | intros Hn; exfalso; apply Hn; now left].
    - rewrite IH. tauto.
  Qed.

Lemma mem_true k d : Dict.mem k d = true <-> In k (Dict.keys d).
  Proof.
    unfold Dict.mem. destruct (Dict.get k d) eqn:E.
    - split; [intros _ | reflexivity].
      destruct (in_dec string_dec k (Dict.keys d)) as [Hin|Hn]; [exact Hin|].
      apply get_None in Hn. congruence.
    - apply get_None in E. split; [discriminate | tauto].
  Qed.

Lemma mem_false k d : Dict.mem k d = false <-> ~ In k (Dict.keys d).
  Proof.
    rewrite <- mem_true. destruct (Dict.mem k d); split; congruence.
  Qed.

Lemma mem_perm k d d' : Permutation d d' -> Dict.mem k d = Dict.mem k d'.
  Proof.
    intros Hp. apply eq_true_iff_eq. rewrite !mem_true.
    split; apply Permutation_in; [|symmetry]; now apply Permutation_map.
  Qed.

Lemma keys_app d1 d2 : Dict.keys (d1 ++ d2) = Dict.keys d1 ++ Dict.keys d2.
  Proof. apply map_app. Qed.

Lemma mem_app_last k n v d :
    Dict.mem k (d ++ [(n, v)]) = Dict.mem k d || (n =? k)%string.
  Proof.
    apply eq_true_iff_eq. rewrite orb_true_iff, !mem_true, keys_app, in_app_iff.
    simpl. rewrite String.eqb_eq. tauto.
  Qed.

Lemma get_In k v d : Dict.get k d = Some v -> In (k, v) d.
  Proof.
    induction d as [|[k' v'] d IH]; simpl; [discriminate|].
    destruct (String.eqb_spec k' k) as [->|Hne].
    - intros [= ->]. now left.
    - intros Hg. right. now apply IH.
  Qed.

Lemma In_get k v d : NoDup (Dict.keys d) -> In (k, v) d -> Dict.get k d = Some v.
  Proof.
    induction d as [|[k' v'] d IH]; simpl; intros Hnd Hin; [contradiction|].
    inversion Hnd as [|? ? Hn Hnd']; subst.
    destruct Hin as [[= -> ->]|Hin].
    - now rewrite String.eqb_refl.
    - destruct (String.eqb_spec k' k) as [->|Hne]; [|now apply IH].
      exfalso. apply Hn. change k with (fst (k, v)). now apply in_map.
  Qed.

  (** [pop] *)
Lemma pop_None k d : Dict.pop k d = None <-> ~ In k (Dict.keys d).
  Proof.
    induction d as [|[k' v'] d IH]; simpl; [tauto|].
    destruct (String.eqb_spec k' k) as [->|Hne].
    - split; [discriminate | intros Hn; exfalso; apply Hn; now left].
    - destruct (Dict.pop k d) as [[x r]|].
      + split; [discriminate|]. intros Hn.
        assert (Hx : Some (x, r) = None) by (apply IH; tauto).
        discriminate Hx.
      + split; [|reflexivity]. intros _ [Heq|Hin]; [congruence|].
        now apply IH.
  Qed.

Lemma pop_Some_perm k v d r :
    Dict.pop k d = Some (v, r) -> Permutation d ((k, v) :: r).
  Proof.
    revert r. induction d as [|[k' v'] d IH]; simpl; intros r; [discriminate|].
    destruct (String.eqb_spec k' k) as [->|Hne].
    - intros [= -> ->]. reflexivity.
    - destruct (Dict.pop k d) as [[x r']|]; [|discriminate].
      intros [= -> <-]. rewrite (IH r' eq_refl). apply perm_swap.
  Qed.

Lemma pop_keys k v d r n :
    Dict.pop k d = Some (v, r) -> In n (Dict.keys r) -> In n (Dict.keys d).
  Proof.
    intros Hp Hin. apply pop_Some_perm in Hp.
    eapply Permutation_in; [symmetry; apply Permutation_map; exact Hp|].
    simpl. now right.
  Qed.

Lemma pop_NoDup k v d r :
    Dict.pop k d = Some (v, r) -> NoDup (Dict.keys d) -> NoDup (Dict.keys r).
  Proof.
    intros Hp Hnd. apply pop_Some_perm in Hp.
    apply (Permutation_map fst) in Hp.
    apply (Permutation_NoDup Hp) in Hnd. now inversion Hnd.
  Qed.

Lemma pop_perm k d d' :
    NoDup (Dict.keys d) -> Permutation d d' ->
    match Dict.pop k d, Dict.pop k d' with
    | Some (v, r), Some (v', r') => v = v' /\ Permutation r r'
    | None, None => True
    | _, _ => False
    end.
  Proof.
    intros Hnd Hp.
    assert (Hnd' : NoDup (Dict.keys d')).
    { eapply Permutation_NoDup; [apply Permutation_map; exact Hp | exact Hnd]. }
    destruct (Dict.pop k d) as [[v r]|] eqn:E, (Dict.pop k d') as [[v' r']|] eqn:E'.
    - pose proof (pop_Some_perm _ _ E) as P. pose proof (pop_Some_perm _ _ E') as P'.
      assert (v = v') as <-.
      { assert (Dict.get k d' = Some v) as G.
        { apply In_get; [exact Hnd'|].
          eapply Permutation_in; [exact Hp|].
          eapply Permutation_in; [symmetry; exact P | now left]. }
        assert (Dict.get k d' = Some v') as G'.
        { apply In_get; [exact Hnd'|].
          eapply Permutation_in; [symmetry; exact P' | now left]. }
        congruence. }
      split; [reflexivity|].
      apply Permutation_cons_inv with (a := (k, v)).
      now rewrite <- P, <- P'.
    - apply pop_None in E'. apply E'.
      eapply Permutation_in; [apply Permutation_map; exact Hp|].
      eapply Permutation_in;
        [symmetry; apply Permutation_map; apply (pop_Some_perm _ _ E)|].
      now left.
    - apply pop_None in E. apply E.
      eapply Permutation_in; [symmetry; apply Permutation_map; exact Hp|].
      eapply Permutation_in;
        [symmetry; apply Permutation_map; apply (pop_Some_perm _ _ E')|].
      now left.
    - exact I.
  Qed.

Lemma pop_app_last n v d :
    ~ In n (Dict.keys d) -> Dict.pop n (d ++ [(n, v)]) = Some (v, d).
  Proof.
    induction d as [|[k' v'] d IH]; simpl; intros Hn.
    - now rewrite String.eqb_refl.
    - destruct (String.eqb_spec k' n) as [->|Hne]; [exfalso; apply Hn; now left|].
      rewrite IH; [reflexivity|]. intros Hin. apply Hn. now right.
  Qed.

Lemma pop_app_other k n v d :
    k <> n ->
    Dict.pop k (d ++ [(n, v)]) =
    match Dict.pop k d with
    | Some (x, r) => Some (x, r ++ [(n, v)])
    | None => None
    end.
  Proof.
    intros Hne. induction d as [|[k' v'] d IH]; simpl.
    - destruct (String.eqb_spec n k) as [->|_]; [congruence | reflexivity].
    - destruct (String.eqb_spec k' k) as [->|_]; [reflexivity|].
      rewrite IH. now destruct (Dict.pop k d) as [[x r]|].
  Qed.

  (** [set] *)
Lemma set_new k v d : ~ In k (Dict.keys d) -> Dict.set k v d = d ++ [(k, v)].
  Proof.
    induction d as [|[k' v'] d IH]; simpl; intros Hn; [reflexivity|].
    destruct (String.eqb_spec k' k) as [->|Hne]; [exfalso; apply Hn; now left|].
    rewrite IH; [reflexivity|]. intros Hin. apply Hn. now right.
  Qed.

Lemma set_same k v d : Dict.get k d = Some v -> Dict.set k v d = d.
  Proof.
    induction d as [|[k' v'] d IH]; simpl; [discriminate|].
    destruct (String.eqb_spec k' k) as [->|Hne].
    - now intros [= ->].
    - intros Hg. now rewrite IH.
  Qed.

Lemma set_app k v d1 d2 :
    Dict.set k v (d1 ++ d2) =
    if Dict.mem k d1 then Dict.set k v d1 ++ d2 else d1 ++ Dict.set k v d2.
  Proof.
    induction d1 as [|[k' v'] d1 IH]; simpl; [reflexivity|].
    unfold Dict.mem. simpl.
    destruct (String.eqb_spec k' k) as [->|Hne]; [reflexivity|].
    rewrite IH. unfold Dict.mem. now destruct (Dict.get k d1).
  Qed.

Lemma keys_set k v d :
    Dict.keys (Dict.set k v d) =
    if Dict.mem k d then Dict.keys d else Dict.keys d ++ [k].
  Proof.
    induction d as [|[k' v'] d IH]; simpl; [reflexivity|].
    unfold Dict.mem. simpl.
    destruct (String.eqb_spec k' k) as [->|Hne]; [reflexivity|].
    simpl. rewrite IH. unfold Dict.mem. now destruct (Dict.get k d).
  Qed.

Lemma get_set k n v d :
    Dict.get n (Dict.set k v d) = if (k =? n)%string then Some v else Dict.get n d.
  Proof.
    induction d as [|[k' v'] d IH]; simpl.
    - reflexivity.
    - destruct (String.eqb_spec k' k) as [->|Hne]; simpl.
      + now destruct (String.eqb_spec k n).
      + rewrite IH. destruct (String.eqb_spec k' n) as [->|Hne'];
          [|reflexivity].
        destruct (String.eqb_spec k n) as [->|_]; [congruence | reflexivity].
  Qed.
End Facts.
End DictFacts.

(** ** Dictionaries with equal items *)
Section ItemsEqual.
Lemma items_equal_refl (d : dict value) : items_equal d d.
  Proof.
    induction d as [|[k v] d IH]; constructor; [apply ve_same | exact IH].
  Qed.

Lemma items_equal_set (k : string) (v1 v2 : value) (d1 d2 : dict value) :
    items_equal d1 d2 -> value_equal v1 v2 ->
    items_equal (Dict.set k v1 d1) (Dict.set k v2 d2).
  Proof.
    intros Hd Hv. induction Hd as [|k' x1 x2 d1 d2 Hx Hd IH]; simpl.
    - repeat constructor. exact Hv.
    - destruct (String.eqb_spec k' k); constructor; assumption.
  Qed.

Lemma items_equal_update (d1 d2 a1 a2 : dict value) :
    items_equal d1 d2 -> items_equal a1 a2 ->
    items_equal (Dict.update d1 a1) (Dict.update d2 a2).
  Proof.
    intros Hd Ha. revert d1 d2 Hd.
    induction Ha as [|k x1 x2 a1 a2 Hx Ha IH]; intros d1 d2 Hd; simpl.
    - exact Hd.
    - apply IH. now apply items_equal_set.
  Qed.

Lemma items_equal_filter (p : string -> bool) (d1 d2 : dict value) :
    items_equal d1 d2 ->
    items_equal (Dict.filter_keys p d1) (Dict.filter_keys p d2).
  Proof.
    intros Hd. induction Hd as [|k x1 x2 d1 d2 Hx Hd IH]; simpl.
    - constructor.
    - destruct (p k); [constructor|]; assumption.
  Qed.
End ItemsEqual.

(** ** [bind] under a reordering of the keyword arguments *)
Section BindReordered.
Variables (kwargs kwargs' : dict value).
Hypothesis Hperm : Permutation kwargs kwargs'.

Lemma bind_positional_perm (parameters : Signature) (args : list value)
      (arguments : dict value) :
    bind_positional parameters args kwargs arguments
    = bind_positional parameters args kwargs' arguments.
  Proof.
    revert parameters arguments.
    induction args as [|a args IH]; intros [|p ps] acc; simpl; try reflexivity.
    - now rewrite (DictFacts.mem_perm (name p) Hperm).
    - rewrite (DictFacts.mem_perm (name p) Hperm). now rewrite IH.
  Qed.
End BindReordered.

Lemma bind_keywords_perm (parameters : Signature) (kwargs kwargs' : dict value)
    (arguments : dict value) (kwargs_param : option Param) :
  NoDup (Dict.keys kwargs) -> Permutation kwargs kwargs' ->
  result_rel keywords_agree
    (bind_keywords parameters kwargs arguments kwargs_param)
    (bind_keywords parameters kwargs' arguments kwargs_param).
Proof.
  revert kwargs kwargs' arguments kwargs_param.
  induction parameters as [|p ps IH]; intros kw kw' acc kp Hnd Hp; simpl.
  - repeat split; assumption.
  - destruct (kind_eqb (pkind p) VAR_KEYWORD); [now apply IH|].
    destruct (kind_eqb (pkind p) VAR_POSITIONAL); [now apply IH|].
    pose proof (DictFacts.pop_perm (name p) Hnd Hp) as Hpop.
    destruct (Dict.pop (name p) kw) as [[v r]|] eqn:E,
             (Dict.pop (name p) kw') as [[v' r']|]; try contradiction.
    + destruct Hpop as [<- Hr].
      destruct (kind_eqb (pkind p) POSITIONAL_ONLY); [exact I|].
      apply IH; [|exact Hr]. eapply DictFacts.pop_NoDup; eassumption.
    + destruct (default p); [now apply IH | exact I].
Qed.

Lemma bind_perm (sig : Signature) (args : list value)
    (kwargs kwargs' : dict value) :
  NoDup (Dict.keys kwargs) -> Permutation kwargs kwargs' ->
  result_rel items_equal (bind sig args kwargs) (bind sig args kwargs').
Proof.
  intros Hnd Hp. unfold bind.
  rewrite <- (bind_positional_perm Hp).
  destruct (bind_positional sig args kwargs []) as [[acc ps]|e]; simpl;
    [|exact I].
  pose proof (bind_keywords_perm ps acc None Hnd Hp) as Hk.
  destruct (bind_keywords ps kwargs acc None) as [[[a1 k1] p1]|e1],
           (bind_keywords ps kwargs' acc None) as [[[a2 k2] p2]|e2];
    simpl in *; try contradiction; [|exact I].
  destruct Hk as (<- & <- & Hk & Hnd1).
  unfold bind_leftover.
  destruct k1 as [|[x1 y1] k1], k2 as [|[x2 y2] k2].
  - apply items_equal_refl.
  - apply Permutation_nil in Hk. discriminate.
  - symmetry in Hk. apply Permutation_nil in Hk. discriminate.
  - destruct p1 as [p|]; simpl; [|exact I].
    apply items_equal_set; [apply items_equal_refl|].
    eapply ve_dict; [exact Hnd1 | exact Hk | apply items_equal_refl].
Qed.

(** ** [bind] when a positional argument is passed by keyword *)
Lemma bind_is_bind_from (sig : Signature) (args : list value)
    (kwargs : dict value) :
  bind sig args kwargs = bind_from sig args kwargs [].
Proof. reflexivity. Qed.

Lemma kind_eqb_eq (a b : kind) : kind_eqb a b = true <-> a = b.
Proof. destruct a, b; simpl; split; congruence. Qed.

Lemma pop_mem {A : Type} (k : string) (d : dict A) :
  Dict.mem k d = match Dict.pop k d with Some _ => true | None => false end.
Proof.
  destruct (Dict.pop k d) as [[v r]|] eqn:E.
  - apply DictFacts.mem_true.
    destruct (in_dec string_dec k (Dict.keys d)) as [Hin|Hn]; [exact Hin|].
    apply DictFacts.pop_None in Hn. congruence.
  - apply DictFacts.mem_false. now apply DictFacts.pop_None.
Qed.

(** When the positional arguments are exhausted, the parameter the
    positional loop looks at is judged as the keyword loop judges it. *)
Lemma bind_from_no_args (parameters : Signature)
    (kwargs arguments : dict value) :
  bind_from parameters [] kwargs arguments
  = bind_keywords_then parameters kwargs arguments.
Proof.
  destruct parameters as [|[n k d] ps]; [reflexivity|].
  unfold bind_from, bind_keywords_then. simpl.
  rewrite pop_mem.
  destruct k; simpl;
    destruct (Dict.pop n kwargs) as [[v r]|] eqn:E; simpl; rewrite ?E;
    try reflexivity; destruct d; simpl; rewrite ?E; reflexivity.
Qed.

Lemma NoDup_names_nth (sig : Signature) (i j : nat) (p q : Param) :
  NoDup (map name sig) ->
  nth_error sig i = Some p -> nth_error sig j = Some q ->
  name p = name q -> i = j.
Proof.
  intros Hnd Hi Hj Hn.
  apply (proj1 (NoDup_nth_error (map name sig)) Hnd).
  - apply nth_error_Some. rewrite nth_error_map, Hi. discriminate.
  - rewrite !nth_error_map, Hi, Hj. simpl. now rewrite Hn.
Qed.

Lemma bind_positional_as_keyword (parameters : Signature) (args : list value)
    (v : value) (kwargs arguments : dict value) (p : Param) :
  NoDup (map name parameters) ->
  StronglySorted kind_le parameters ->
  nth_error parameters (List.length args) = Some p ->
  pkind p = POSITIONAL_OR_KEYWORD ->
  ~ In (name p) (Dict.keys kwargs) ->
  bind_from parameters (args ++ [v]) kwargs arguments
  = bind_from parameters args (kwargs ++ [(name p, v)]) arguments.
Proof.
  revert parameters arguments.
  induction args as [|a args IH]; intros ps acc Hnd Hs Hnth Hk Hn.
  - destruct ps as [|q ps]; [discriminate|]. injection Hnth as ->.
    rewrite bind_from_no_args.
    unfold bind_from at 1. simpl. rewrite Hk. simpl.
    apply DictFacts.mem_false in Hn. rewrite Hn. simpl.
    change (bind_from ps [] kwargs (Dict.set (name p) v acc)
            = bind_keywords_then (p :: ps) (kwargs ++ [(name p, v)]) acc).
    rewrite bind_from_no_args. unfold bind_keywords_then. simpl.
    rewrite Hk. simpl. rewrite DictFacts.pop_app_last.
    + reflexivity.
    + now apply DictFacts.mem_false.
  - destruct ps as [|q ps]; [discriminate|]. simpl in Hnth.
    inversion Hnd as [|? ? Hq Hnd']; subst.
    inversion Hs as [|? ? Hs' Hall]; subst.
    assert (Hin : In p ps) by (eapply nth_error_In; exact Hnth).
    assert (Hne : name p <> name q).
    { intros Heq. apply Hq. rewrite <- Heq. now apply in_map. }
    assert (Hle : kind_le q p) by (rewrite Forall_forall in Hall; now apply Hall).
    unfold kind_le in Hle. rewrite Hk in Hle.
    unfold bind_from. simpl.
    rewrite DictFacts.mem_app_last.
    destruct (String.eqb_spec (name p) (name q)) as [Heq|_]; [contradiction|].
    rewrite orb_false_r.
    destruct (pkind q); simpl in *; try lia; try reflexivity.
    + destruct (Dict.mem (name q) kwargs); simpl;
        apply (IH ps _ Hnd' Hs' Hnth Hk Hn).
    + destruct (Dict.mem (name q) kwargs); simpl; [reflexivity|].
      apply (IH ps _ Hnd' Hs' Hnth Hk Hn).
Qed.

(** ** [bind] when a default is supplied explicitly *)

Lemma inserted_set (n k : string) (d v : value) (a1 a2 : dict value) :
  k <> n -> inserted n d a1 a2 ->
  inserted n d (Dict.set k v a1) (Dict.set k v a2).
Proof.
  intros Hne (x & y & -> & -> & Hx).
  rewrite !DictFacts.set_app.
  destruct (Dict.mem k x) eqn:M.
  - exists (Dict.set k v x), y. repeat split.
    rewrite DictFacts.keys_set, M. exact Hx.
  - exists x, (Dict.set k v y). repeat split; [|exact Hx].
    simpl. destruct (String.eqb_spec n k) as [->|_]; [congruence | reflexivity].
Qed.

Lemma inserted_last (n : string) (d : value) (a : dict value) :
  ~ In n (Dict.keys a) -> inserted n d a (Dict.set n d a).
Proof.
  intros Hn. exists a, []. rewrite app_nil_r.
  repeat split; [now apply DictFacts.set_new | exact Hn].
Qed.

(** After the parameter has been met, the two runs of the keyword loop go
    the same way. *)
Lemma bind_keywords_inserted (n : string) (d : value) (parameters : Signature)
    (kwargs a1 a2 : dict value) (kwargs_param : option Param) :
  ~ In n (map name parameters) ->
  inserted n d a1 a2 ->
  result_rel (keywords_inserted n d)
    (bind_keywords parameters kwargs a1 kwargs_param)
    (bind_keywords parameters kwargs a2 kwargs_param).
Proof.
  revert kwargs a1 a2 kwargs_param.
  induction parameters as [|q ps IH]; intros kw a1 a2 kp Hn Hi; simpl.
  - repeat split. exact Hi.
  - assert (Hps : ~ In n (map name ps)) by (intros X; apply Hn; now right).
    destruct (kind_eqb (pkind q) VAR_KEYWORD); [now apply IH|].
    destruct (kind_eqb (pkind q) VAR_POSITIONAL); [now apply IH|].
    destruct (Dict.pop (name q) kw) as [[v r]|].
    + destruct (kind_eqb (pkind q) POSITIONAL_ONLY); [exact I|].
      apply IH; [exact Hps|]. apply inserted_set; [|exact Hi].
      intros Heq. apply Hn. left. exact Heq.
    + destruct (default q); [now apply IH | exact I].
Qed.

(** The keyword loop with and without the keyword [(n, d)], where [n] names
    a parameter still to come whose default is [d]. *)
Lemma bind_keywords_default (p : Param) (d : value) (parameters : Signature)
    (kwargs arguments : dict value) (kwargs_param : option Param) :
  NoDup (map name parameters) ->
  In p parameters ->
  default p = Some d ->
  pkind p = POSITIONAL_OR_KEYWORD \/ pkind p = KEYWORD_ONLY ->
  ~ In (name p) (Dict.keys kwargs) ->
  ~ In (name p) (Dict.keys arguments) ->
  result_rel (keywords_inserted (name p) d)
    (bind_keywords parameters kwargs arguments kwargs_param)
    (bind_keywords parameters (kwargs ++ [(name p, d)]) arguments kwargs_param).
Proof.
  intros Hnd Hin Hd Hk.
  revert kwargs arguments kwargs_param Hnd Hin.
  induction parameters as [|q ps IH]; intros kw acc kp Hnd Hin Hkw Hacc;
    [contradiction|].
  inversion Hnd as [|? ? Hq Hnd']; subst.
  destruct Hin as [->|Hin].
  - simpl.
    replace (kind_eqb (pkind p) VAR_KEYWORD) with false
      by (destruct Hk as [-> | ->]; reflexivity).
    replace (kind_eqb (pkind p) VAR_POSITIONAL) with false
      by (destruct Hk as [-> | ->]; reflexivity).
    replace (kind_eqb (pkind p) POSITIONAL_ONLY) with false
      by (destruct Hk as [-> | ->]; reflexivity).
    rewrite DictFacts.pop_app_last by exact Hkw.
    rewrite (proj2 (DictFacts.pop_None (name p) kw) Hkw), Hd.
    apply bind_keywords_inserted; [exact Hq|].
    now apply inserted_last.
  - assert (Hne : name q <> name p).
    { intros Heq. apply Hq. rewrite Heq. now apply in_map. }
    simpl.
    destruct (kind_eqb (pkind q) VAR_KEYWORD); [now apply IH|].
    destruct (kind_eqb (pkind q) VAR_POSITIONAL); [now apply IH|].
    rewrite DictFacts.pop_app_other by exact Hne.
    destruct (Dict.pop (name q) kw) as [[v r]|] eqn:E.
    + destruct (kind_eqb (pkind q) POSITIONAL_ONLY); [exact I|].
      apply IH; try assumption.
      * intros X. apply Hkw. eapply DictFacts.pop_keys; eassumption.
      * rewrite DictFacts.keys_set.
        destruct (Dict.mem (name q) acc); [exact Hacc|].
        rewrite in_app_iff. simpl. intros [X|[X|[]]]; [now apply Hacc|].
        now apply Hne.
    + destruct (default q); [now apply IH | exact I].
Qed.

Lemma bind_keywords_param (parameters : Signature)
    (kwargs arguments : dict value) (kwargs_param : option Param)
    (a k : dict value) (kp : option Param) :
  bind_keywords parameters kwargs arguments kwargs_param = Ok (a, k, kp) ->
  kp = kwargs_param
  \/ exists q, kp = Some q /\ In q parameters /\ pkind q = VAR_KEYWORD.
Proof.
  revert kwargs arguments kwargs_param.
  induction parameters as [|q ps IH]; intros kw acc kp0; simpl.
  - intros [= _ _ ->]. now left.
  - destruct (kind_eqb (pkind q) VAR_KEYWORD) eqn:K.
    + intros Hb. apply IH in Hb. destruct Hb as [->|(q' & -> & Hin & Hk)].
      * right. exists q. apply kind_eqb_eq in K. repeat split; [now left | exact K].
      * right. exists q'. repeat split; [now right | exact Hk].
    + assert (Hstep : forall kw' acc',
                 bind_keywords ps kw' acc' kp0 = Ok (a, k, kp) ->
                 kp = kp0 \/ exists q', kp = Some q' /\ In q' (q :: ps)
                                        /\ pkind q' = VAR_KEYWORD).
      { intros kw' acc' Hb. apply IH in Hb.
        destruct Hb as [->|(q' & -> & Hin & Hk)]; [now left|].
        right. exists q'. repeat split; [now right | exact Hk]. }
      destruct (kind_eqb (pkind q) VAR_POSITIONAL); [apply Hstep|].
      destruct (Dict.pop (name q) kw) as [[v r]|].
      * destruct (kind_eqb (pkind q) POSITIONAL_ONLY); [discriminate | apply Hstep].
      * destruct (default q); [apply Hstep | discriminate].
Qed.

Lemma bind_keywords_then_default (p : Param) (d : value) (parameters : Signature)
    (kwargs arguments : dict value) :
  NoDup (map name parameters) ->
  In p parameters ->
  default p = Some d ->
  pkind p = POSITIONAL_OR_KEYWORD \/ pkind p = KEYWORD_ONLY ->
  ~ In (name p) (Dict.keys kwargs) ->
  ~ In (name p) (Dict.keys arguments) ->
  result_rel (inserted (name p) d)
    (bind_keywords_then parameters kwargs arguments)
    (bind_keywords_then parameters (kwargs ++ [(name p, d)]) arguments).
Proof.
  intros Hnd Hin Hd Hk Hkw Hacc. unfold bind_keywords_then.
  pose proof (@bind_keywords_default p d parameters kwargs arguments None
                Hnd Hin Hd Hk Hkw Hacc) as Hr.
  destruct (bind_keywords parameters kwargs arguments None)
    as [[[a1 k1] p1]|e1] eqn:E1,
    (bind_keywords parameters (kwargs ++ [(name p, d)]) arguments None)
    as [[[a2 k2] p2]|e2]; simpl in *; try contradiction; [|exact I].
  destruct Hr as (Hi & <- & <-).
  unfold bind_leftover. destruct k1 as [|[x y] k1]; [exact Hi|].
  destruct p1 as [q|]; [|exact I]. simpl.
  apply inserted_set; [|exact Hi].
  apply bind_keywords_param in E1.
  destruct E1 as [E1|(q' & [= <-] & Hq & Kq)]; [discriminate|].
  intros Heq.
  assert (q = p) as ->.
  { destruct (In_nth_error _ _ Hq) as [i Hi'].
    destruct (In_nth_error _ _ Hin) as [j Hj'].
    assert (i = j) by (eapply NoDup_names_nth; eassumption).
    subst j. congruence. }
  destruct Hk as [Hk|Hk]; congruence.
Qed.

Lemma bind_from_default (p : Param) (d : value) (i : nat)
    (parameters : Signature) (args : list value)
    (kwargs arguments : dict value) :
  NoDup (map name parameters) ->
  nth_error parameters i = Some p ->
  default p = Some d ->
  (pkind p = POSITIONAL_OR_KEYWORD /\ (List.length args <= i)%nat)
  \/ pkind p = KEYWORD_ONLY ->
  ~ In (name p) (Dict.keys kwargs) ->
  ~ In (name p) (Dict.keys arguments) ->
  result_rel (inserted (name p) d)
    (bind_from parameters args kwargs arguments)
    (bind_from parameters args (kwargs ++ [(name p, d)]) arguments).
Proof.
  intros Hnd Hnth Hd Hk Hkw.
  revert parameters arguments i Hnd Hnth Hk.
  induction args as [|a args IH]; intros ps acc i Hnd Hnth Hk Hacc.
  - rewrite !bind_from_no_args.
    apply bind_keywords_then_default; try assumption.
    + eapply nth_error_In; exact Hnth.
    + destruct Hk as [[Hk _]|Hk]; [now left | now right].
  - destruct ps as [|q ps]; [now destruct i|].
    inversion Hnd as [|? ? Hq Hnd']; subst.
    assert (Hacc' : forall x, name q <> name p ->
                      ~ In (name p) (Dict.keys (Dict.set (name q) x acc))).
    { intros x Hne. rewrite DictFacts.keys_set.
      destruct (Dict.mem (name q) acc); [exact Hacc|].
      rewrite in_app_iff. simpl. intros [X|[X|[]]]; [now apply Hacc|].
      now apply Hne. }
    unfold bind_from. simpl.
    destruct (kind_eqb (pkind q) VAR_KEYWORD || kind_eqb (pkind q) KEYWORD_ONLY)
      eqn:K1; [exact I|].
    apply orb_false_elim in K1. destruct K1 as [K1 K2].
    assert (Hi : exists i', i = S i' /\ nth_error ps i' = Some p
                            /\ name q <> name p).
    { destruct i as [|i'].
      - injection Hnth as ->. exfalso.
        destruct Hk as [[_ Hl]|Hk]; [simpl in Hl; lia|].
        rewrite Hk in K2. discriminate.
      - exists i'. repeat split; [exact Hnth|].
        intros Heq. apply Hq. rewrite Heq. apply in_map.
        eapply nth_error_In. exact Hnth. }
    destruct Hi as (i' & -> & Hnth' & Hne). simpl in Hnth.
    destruct (kind_eqb (pkind q) VAR_POSITIONAL).
    + apply bind_keywords_then_default; try assumption.
      * eapply nth_error_In; exact Hnth'.
      * destruct Hk as [[Hk _]|Hk]; [now left | now right].
      * now apply Hacc'.
    + rewrite DictFacts.mem_app_last.
      destruct (String.eqb_spec (name p) (name q)) as [Heq|_]; [congruence|].
      rewrite orb_false_r.
      destruct (Dict.mem (name q) kwargs
                && negb (kind_eqb (pkind q) POSITIONAL_ONLY)); [exact I|].
      apply (IH ps _ i' Hnd' Hnth').
      * destruct Hk as [[Hk Hl]|Hk]; [left | now right].
        split; [exact Hk | simpl in Hl; lia].
      * now apply Hacc'.
Qed.

(** ** [bind] when a default is supplied by position *)
Lemma bind_keywords_then_inserted (n : string) (d : value) (ps : Signature)
    (kwargs a1 a2 : dict value) :
  ~ In n (map name ps) ->
  inserted n d a1 a2 ->
  result_rel (inserted n d)
    (bind_keywords_then ps kwargs a1) (bind_keywords_then ps kwargs a2).
Proof.
  intros Hn Hi. unfold bind_keywords_then.
  pose proof (@bind_keywords_inserted n d ps kwargs a1 a2 None Hn Hi) as Hr.
  destruct (bind_keywords ps kwargs a1 None) as [[[b1 k1] p1]|e1] eqn:E1,
           (bind_keywords ps kwargs a2 None) as [[[b2 k2] p2]|e2];
    simpl in *; try contradiction; [|exact I].
  destruct Hr as (Hb & <- & <-).
  unfold bind_leftover. destruct k1 as [|[x y] k1]; [exact Hb|].
  destruct p1 as [q|]; [|exact I]. simpl.
  apply inserted_set; [|exact Hb].
  apply bind_keywords_param in E1.
  destruct E1 as [E1|(q' & [= <-] & Hq & _)]; [discriminate|].
  intros Heq. apply Hn. rewrite <- Heq. now apply in_map.
Qed.

Lemma bind_from_default_by_position (p : Param) (d : value)
    (parameters : Signature) (args : list value)
    (kwargs arguments : dict value) :
  NoDup (map name parameters) ->
  StronglySorted kind_le parameters ->
  nth_error parameters (List.length args) = Some p ->
  default p = Some d ->
  pkind p = POSITIONAL_ONLY \/ pkind p = POSITIONAL_OR_KEYWORD ->
  ~ In (name p) (Dict.keys kwargs) ->
  ~ In (name p) (Dict.keys arguments) ->
  result_rel (inserted (name p) d)
    (bind_from parameters args kwargs arguments)
    (bind_from parameters (args ++ [d]) kwargs arguments).
Proof.
  intros Hnd Hs Hnth Hd Hk Hkw.
  revert parameters arguments Hnd Hs Hnth.
  induction args as [|x args IH]; intros ps acc Hnd Hs Hnth Hacc.
  - destruct ps as [|q ps]; [discriminate|]. injection Hnth as ->.
    inversion Hnd as [|? ? Hq _]; subst.
    assert (Hl : bind_from (p :: ps) [] kwargs acc
                 = bind_keywords_then ps kwargs acc).
    { rewrite bind_from_no_args. unfold bind_keywords_then. simpl.
      rewrite (proj2 (DictFacts.pop_None (name p) kwargs) Hkw), Hd.
      destruct Hk as [-> | ->]; reflexivity. }
    assert (Hr : bind_from (p :: ps) ([] ++ [d]) kwargs acc
                 = bind_keywords_then ps kwargs (Dict.set (name p) d acc)).
    { rewrite <- bind_from_no_args. unfold bind_from. simpl.
      rewrite (proj2 (DictFacts.mem_false (name p) kwargs) Hkw).
      destruct Hk as [-> | ->]; reflexivity. }
    rewrite Hl, Hr.
    apply bind_keywords_then_inserted; [exact Hq | now apply inserted_last].
  - destruct ps as [|q ps]; [discriminate|]. simpl in Hnth.
    inversion Hnd as [|? ? Hq Hnd']; subst.
    inversion Hs as [|? ? Hs' Hall]; subst.
    assert (Hin : In p ps) by (eapply nth_error_In; exact Hnth).
    assert (Hne : name q <> name p).
    { intros Heq. apply Hq. rewrite Heq. now apply in_map. }
    assert (Hle : kind_le q p) by (rewrite Forall_forall in Hall; now apply Hall).
    unfold bind_from. simpl.
    destruct (kind_eqb (pkind q) VAR_KEYWORD || kind_eqb (pkind q) KEYWORD_ONLY);
      [exact I|].
    destruct (kind_eqb (pkind q) VAR_POSITIONAL) eqn:K.
    { exfalso. apply kind_eqb_eq in K. unfold kind_le in Hle. rewrite K in Hle.
      destruct Hk as [Hk|Hk]; rewrite Hk in Hle; simpl in Hle; lia. }
    destruct (Dict.mem (name q) kwargs
              && negb (kind_eqb (pkind q) POSITIONAL_ONLY)); [exact I|].
    apply (IH ps _ Hnd' Hs' Hnth).
    rewrite DictFacts.keys_set.
    destruct (Dict.mem (name q) acc); [exact Hacc|].
    rewrite in_app_iff. simpl. intros [X|[X|[]]]; [now apply Hacc|].
    now apply Hne.
Qed.

(** ** The merged arguments *)
Section Merged.
Context `{Externals}.
Import Benchmark.

Lemma defaults_fold (sig : Signature) :
    defaults sig = fold_left default_step sig [].
  Proof. reflexivity. Qed.

Lemma get_fold_defaults_other (n : string) (ps : Signature)
      (acc : dict value) :
    ~ In n (map name ps) ->
    Dict.get n (fold_left default_step ps acc) = Dict.get n acc.
  Proof.
    revert acc. induction ps as [|q ps IH]; intros acc Hn; simpl;
      [reflexivity|].
    rewrite IH by (intros X; apply Hn; now right).
    unfold default_step. destruct (default q); [|reflexivity].
    rewrite DictFacts.get_set.
    destruct (String.eqb_spec (name q) n) as [Heq|_]; [|reflexivity].
    exfalso. apply Hn. now left.
  Qed.

Lemma get_defaults (sig : Signature) (p : Param) (d : value) :
    NoDup (map name sig) -> In p sig -> default p = Some d ->
    Dict.get (name p) (defaults sig) = Some d.
  Proof.
    rewrite defaults_fold. generalize (@nil (string * value)) as acc.
    induction sig as [|q ps IH]; intros acc Hnd Hin Hd; [contradiction|].
    inversion Hnd as [|? ? Hq Hnd']; subst. simpl.
    destruct Hin as [->|Hin]; [|now apply IH].
    rewrite get_fold_defaults_other by exact Hq.
    unfold default_step. rewrite Hd, DictFacts.get_set.
    now rewrite String.eqb_refl.
  Qed.

Lemma get_update_other (n : string) (x acc : dict value) :
    ~ In n (Dict.keys x) -> Dict.get n (Dict.update acc x) = Dict.get n acc.
  Proof.
    unfold Dict.update. revert acc.
    induction x as [|[k v] x IH]; intros acc Hn; simpl; [reflexivity|].
    rewrite IH by (intros X; apply Hn; now right).
    rewrite DictFacts.get_set.
    destruct (String.eqb_spec k n) as [Heq|_]; [|reflexivity].
    exfalso. apply Hn. now left.
  Qed.

Lemma update_app (acc x y : dict value) :
    Dict.update acc (x ++ y) = Dict.update (Dict.update acc x) y.
  Proof. apply fold_left_app. Qed.

Lemma update_inserted (n : string) (d : value) (acc a1 a2 : dict value) :
    inserted n d a1 a2 -> Dict.get n acc = Some d ->
    Dict.update acc a2 = Dict.update acc a1.
  Proof.
    intros (x & y & -> & -> & Hx) Hg. rewrite !update_app.
    change (Dict.update (Dict.update acc x) ((n, d) :: y))
      with (Dict.update (Dict.set n d (Dict.update acc x)) y).
    rewrite DictFacts.set_same; [reflexivity|].
    now rewrite get_update_other.
  Qed.

Lemma NoDup_keys_set (k : string) (v : value) (d : dict value) :
    NoDup (Dict.keys d) -> NoDup (Dict.keys (Dict.set k v d)).
  Proof.
    intros Hnd. rewrite DictFacts.keys_set.
    destruct (Dict.mem k d) eqn:M; [exact Hnd|].
    apply DictFacts.mem_false in M.
    apply NoDup_app; [exact Hnd | repeat constructor; intros [] |].
    intros x Hx [<-|[]]. contradiction.
  Qed.

Lemma NoDup_keys_update (acc x : dict value) :
    NoDup (Dict.keys acc) -> NoDup (Dict.keys (Dict.update acc x)).
  Proof.
    revert acc. induction x as [|[k v] x IH]; intros acc Hnd; simpl;
      [exact Hnd|].
    apply IH. now apply NoDup_keys_set.
  Qed.

Lemma NoDup_keys_defaults (sig : Signature) :
    NoDup (Dict.keys (defaults sig)).
  Proof.
    rewrite defaults_fold.
    assert (Hnil : NoDup (Dict.keys (@nil (string * value)))) by constructor.
    revert Hnil. generalize (@nil (string * value)) as acc.
    induction sig as [|q ps IH]; intros acc Hnd; simpl; [exact Hnd|].
    apply IH. unfold default_step.
    destruct (default q); [now apply NoDup_keys_set | exact Hnd].
  Qed.

Lemma NoDup_keys_filter (p : string -> bool) (d : dict value) :
    NoDup (Dict.keys d) -> NoDup (Dict.keys (Dict.filter_keys p d)).
  Proof.
    induction d as [|[k v] d IH]; simpl; intros Hnd; [constructor|].
    inversion Hnd as [|? ? Hk Hnd']; subst.
    destruct (p k); simpl; [|now apply IH].
    constructor; [|now apply IH].
    intros Hin. apply Hk. unfold Dict.keys, Dict.filter_keys in Hin.
    apply in_map_iff in Hin. destruct Hin as [[k' v'] [<- Hin]].
    apply filter_In in Hin. destruct Hin as [Hin _].
    change (fst (k', v')) with (fst (k', v')). now apply in_map.
  Qed.

Lemma func_args_NoDup (func : Callable) (args : list value)
      (kwargs m : dict value) :
    func_args func args kwargs = Ok m -> NoDup (Dict.keys m).
  Proof.
    unfold func_args.
    destruct (bind (signature func) args kwargs) as [a|e]; simpl;
      [|discriminate].
    intros [= <-]. apply NoDup_keys_update, NoDup_keys_defaults.
  Qed.

  (** Merged arguments with equal items give one fingerprint. *)
Lemma arg_data_items_equal (func : Callable) (m1 m2 : dict value) :
    NoDup (Dict.keys m1) -> items_equal m1 m2 ->
    value_equal (arg_data_of func m1) (arg_data_of func m2).
  Proof.
    intros Hnd Hm. unfold arg_data_of.
    eapply ve_dict; [|reflexivity|].
    - repeat constructor; simpl; intuition discriminate.
    - constructor; [apply ve_same|]. constructor; [|constructor].
      eapply ve_dict; [|reflexivity|].
      + now apply NoDup_keys_filter.
      + now apply items_equal_filter.
  Qed.

Lemma same_fingerprint_of_items (func : Callable) (c1 c2 : call) :
    result_rel items_equal (func_args func (fst c1) (snd c1))
                           (func_args func (fst c2) (snd c2)) ->
    same_fingerprint (_get_arg_data func (fst c1) (snd c1))
                     (_get_arg_data func (fst c2) (snd c2)).
  Proof.
    unfold _get_arg_data. intros Hr.
    destruct (func_args func (fst c1) (snd c1)) as [m1|e1] eqn:E1,
             (func_args func (fst c2) (snd c2)) as [m2|e2];
      simpl in *; try contradiction; [|exact I].
    apply fingerprint_value_equal, arg_data_items_equal; [|exact Hr].
    eapply func_args_NoDup; exact E1.
  Qed.

Lemma same_fingerprint_refl (r : result (string * json)) :
    same_fingerprint r r.
  Proof. destruct r as [[fp j]|e]; simpl; auto. Qed.

Lemma same_fingerprint_sym (r1 r2 : result (string * json)) :
    same_fingerprint r1 r2 -> same_fingerprint r2 r1.
  Proof.
    destruct r1 as [[fp1 j1]|e1], r2 as [[fp2 j2]|e2]; simpl; auto.
  Qed.

Lemma same_fingerprint_trans (r1 r2 r3 : result (string * json)) :
    same_fingerprint r1 r2 -> same_fingerprint r2 r3 -> same_fingerprint r1 r3.
  Proof.
    destruct r1 as [[fp1 j1]|e1], r2 as [[fp2 j2]|e2], r3 as [[fp3 j3]|e3];
      simpl; try tauto; congruence.
  Qed.

Lemma func_args_variation (func : Callable) (c1 c2 : call) :
    wf_sig (signature func) ->
    call_variation (signature func) c1 c2 ->
    result_rel items_equal (func_args func (fst c1) (snd c1))
                           (func_args func (fst c2) (snd c2)).
  Proof.
    intros (Hnd & _ & Hs) Hv. unfold func_args.
    destruct Hv as [args kw kw' Hkw Hp | args v kw p Hnth Hk Hn
                   | args kw p d i Hnth Hd Hk Hn
                   | args kw p d Hnth Hd Hk Hn]; simpl.
    - pose proof (bind_perm (signature func) args Hkw Hp) as Hb.
      destruct (bind (signature func) args kw) as [a1|e1],
               (bind (signature func) args kw') as [a2|e2];
        simpl in *; try contradiction; [|exact I].
      apply items_equal_update; [apply items_equal_refl | exact Hb].
    - rewrite !bind_is_bind_from.
      rewrite (@bind_positional_as_keyword (signature func) args v kw [] p)
        by assumption.
      destruct (bind_from (signature func) args (kw ++ [(name p, v)]) []);
        simpl; [apply items_equal_refl | exact I].
    - rewrite !bind_is_bind_from.
      assert (Hnil : ~ In (name p) (Dict.keys (@nil (string * value))))
        by (intros []).
      pose proof (@bind_from_default p d i (signature func) args kw []
                    Hnd Hnth Hd Hk Hn Hnil) as Hb.
      destruct (bind_from (signature func) args kw []) as [a1|e1],
        (bind_from (signature func) args (kw ++ [(name p, d)]) []) as [a2|e2];
        simpl in *; try contradiction; [|exact I].
      rewrite (update_inserted _ Hb).
      + apply items_equal_refl.
      + apply get_defaults; try assumption.
        eapply nth_error_In. exact Hnth.
    - rewrite !bind_is_bind_from.
      assert (Hnil : ~ In (name p) (Dict.keys (@nil (string * value))))
        by (intros []).
      pose proof (@bind_from_default_by_position p d (signature func) args
                    kw [] Hnd Hs Hnth Hd Hk Hn Hnil) as Hb.
      destruct (bind_from (signature func) args kw []) as [a1|e1],
        (bind_from (signature func) (args ++ [d]) kw []) as [a2|e2];
        simpl in *; try contradiction; [|exact I].
      rewrite (update_inserted _ Hb).
      + apply items_equal_refl.
      + apply get_defaults; try assumption.
        eapply nth_error_In. exact Hnth.
  Qed.

  (** C3.  Two calls of one callable that supply the same parameters, the
      keyword arguments in another order, an argument by position or by
      keyword, a default left out or written out (by keyword or by
      position), get the same fingerprint from [_get_arg_data], on which
      [exists], [run] and [add] rely, and one of them binds exactly when
      the other does; so [exists] answers the same for both. *)
Theorem fingerprint_same_parameters (func : Callable) (c1 c2 : call) :
    wf_sig (signature func) ->
    same_parameters (signature func) c1 c2 ->
    same_fingerprint (_get_arg_data func (fst c1) (snd c1))
                     (_get_arg_data func (fst c2) (snd c2))
    /\ forall self,
         result_rel eq (exists_ self func (fst c1) (snd c1))
                       (exists_ self func (fst c2) (snd c2)).
  Proof.
    intros Hwf Hs.
    assert (Hf : same_fingerprint (_get_arg_data func (fst c1) (snd c1))
                                  (_get_arg_data func (fst c2) (snd c2))).
    { induction Hs as [c1 c2 (_ & _ & Hv) | c | c1 c2 _ IH
                      | c1 c2 c3 _ IH1 _ IH2].
      - now apply same_fingerprint_of_items, func_args_variation.
      - apply same_fingerprint_refl.
      - now apply same_fingerprint_sym.
      - eapply same_fingerprint_trans; eassumption. }
    split; [exact Hf|]. intros self. unfold exists_.
    destruct (_get_arg_data func (fst c1) (snd c1)) as [[fp1 j1]|e1],
             (_get_arg_data func (fst c2) (snd c2)) as [[fp2 j2]|e2];
      simpl in *; try contradiction; [|exact I].
    now rewrite Hf.
  Qed.
End Merged.

(** ** The order of the bound arguments *)
Section Subseq.
Context {A : Type}.
Implicit Types (s l : list A).

Lemma subseq_nil_l l : subseq [] l.
  Proof. induction l; constructor; assumption. Qed.

Lemma subseq_refl l : subseq l l.
  Proof. induction l; constructor; assumption. Qed.

Lemma subseq_In s l x : subseq s l -> In x s -> In x l.
  Proof.
    induction 1 as [|y s l _ IH|y s l _ IH]; simpl; intros Hin.
    - exact Hin.
    - right. now apply IH.
    - destruct Hin as [->|Hin]; [now left | right; now apply IH].
  Qed.

Lemma subseq_singleton x l : In x l -> subseq [x] l.
  Proof.
    induction l as [|y l IH]; simpl; intros Hin; [contradiction|].
    destruct Hin as [->|Hin].
    - apply subseq_keep. apply subseq_nil_l.
    - apply subseq_skip. now apply IH.
  Qed.

Lemma subseq_app s1 l1 s2 l2 :
    subseq s1 l1 -> subseq s2 l2 -> subseq (s1 ++ s2) (l1 ++ l2).
  Proof.
    intros H1 H2. induction H1; simpl; try constructor; assumption.
  Qed.

Lemma subseq_app_l s1 s2 l : subseq (s1 ++ s2) l -> subseq s1 l.
  Proof.
    revert s1. induction l as [|y l IH]; intros s1 Hs.
    - inversion Hs as [E| |]. symmetry in E. apply app_eq_nil in E.
      destruct E as [-> _]. constructor.
    - destruct s1 as [|x s1]; [apply subseq_nil_l|].
      simpl in Hs. inversion Hs; subst.
      + apply subseq_skip. apply IH. assumption.
      + apply subseq_keep. now apply IH.
  Qed.

Lemma subseq_filter (f : A -> bool) s l :
    subseq s l -> subseq (filter f s) (filter f l).
  Proof.
    induction 1 as [|y s l _ IH|y s l _ IH]; simpl.
    - constructor.
    - destruct (f y); [constructor|]; assumption.
    - destruct (f y); [constructor|]; assumption.
  Qed.

Lemma subseq_NoDup s l : subseq s l -> NoDup l -> NoDup s.
  Proof.
    induction 1 as [|y s l Hs IH|y s l Hs IH]; intros Hnd.
    - constructor.
    - inversion Hnd; subst. now apply IH.
    - inversion Hnd as [|? ? Hy Hnd']; subst. constructor; [|now apply IH].
      intros Hin. apply Hy. eapply subseq_In; eassumption.
  Qed.
End Subseq.

Lemma keys_set_fresh (k : string) (v : value) (d : dict value) :
  ~ In k (Dict.keys d) -> Dict.keys (Dict.set k v d) = Dict.keys d ++ [k].
Proof.
  intros Hn. rewrite DictFacts.keys_set.
  apply DictFacts.mem_false in Hn. now rewrite Hn.
Qed.

Lemma fresh_for_tail (q : Param) (ps : Signature) (acc : dict value) :
  fresh_for (q :: ps) acc -> fresh_for ps acc.
Proof. intros Hf n Hn. apply Hf. now right. Qed.

Lemma fresh_for_set (q : Param) (ps : Signature) (acc : dict value) (v : value) :
  NoDup (map name (q :: ps)) -> fresh_for (q :: ps) acc ->
  fresh_for ps (Dict.set (name q) v acc).
Proof.
  intros Hnd Hf n Hn. inversion Hnd as [|? ? Hq _]; subst.
  rewrite keys_set_fresh by (apply Hf; now left).
  rewrite in_app_iff. simpl. intros [X|[X|[]]].
  - apply (Hf n); [now right | exact X].
  - subst n. contradiction.
Qed.

(** Past the first [**kwargs] parameter there are only [**kwargs]
    parameters, and the keyword loop binds nothing more. *)
Lemma bind_keywords_only_var_keyword (ps : Signature)
    (kwargs arguments : dict value) (kwargs_param : option Param) :
  Forall (fun q => pkind q = VAR_KEYWORD) ps ->
  exists kp, bind_keywords ps kwargs arguments kwargs_param
             = Ok (arguments, kwargs, kp)
             /\ (kp = kwargs_param \/ exists q, kp = Some q /\ In q ps).
Proof.
  revert kwargs_param. induction ps as [|q ps IH]; intros kp0 Hall; simpl.
  - eexists. split; [reflexivity | now left].
  - inversion Hall as [|? ? Hq Hall']; subst. rewrite Hq. simpl.
    destruct (IH (Some q) Hall') as (kp & -> & Hkp).
    exists kp. split; [reflexivity|]. right.
    destruct Hkp as [->|(q' & -> & Hin)].
    + exists q. split; [reflexivity | now left].
    + exists q'. split; [reflexivity | now right].
Qed.

Lemma sorted_after_var_keyword (q : Param) (ps : Signature) :
  StronglySorted kind_le (q :: ps) -> pkind q = VAR_KEYWORD ->
  Forall (fun q' => pkind q' = VAR_KEYWORD) ps.
Proof.
  intros Hs Hq. inversion Hs as [|? ? _ Hall]; subst.
  eapply Forall_impl; [|exact Hall]. intros q' Hle.
  unfold kind_le in Hle. rewrite Hq in Hle.
  destruct (pkind q'); simpl in Hle; try lia. reflexivity.
Qed.

Lemma bind_keywords_keys (ps : Signature) (kwargs arguments : dict value)
    (kwargs_param : option Param) (a k : dict value) (kp : option Param) :
  StronglySorted kind_le ps ->
  NoDup (map name ps) ->
  fresh_for ps arguments ->
  bind_keywords ps kwargs arguments kwargs_param = Ok (a, k, kp) ->
  exists s, Dict.keys a = Dict.keys arguments ++ s
            /\ ((kp = kwargs_param /\ subseq s (map name ps))
                \/ exists q, kp = Some q
                             /\ subseq (s ++ [name q]) (map name ps)).
Proof.
  revert kwargs arguments kwargs_param.
  induction ps as [|q ps IH]; intros kw acc kp0 Hs Hnd Hf; simpl.
  - intros [= <- _ <-]. exists []. rewrite app_nil_r.
    split; [reflexivity|]. left. split; [reflexivity | constructor].
  - assert (Hs' : StronglySorted kind_le ps) by now inversion Hs.
    assert (Hnd' : NoDup (map name ps)) by now inversion Hnd.
    assert (Hskip : forall kw',
               bind_keywords ps kw' acc kp0 = Ok (a, k, kp) ->
               exists s, Dict.keys a = Dict.keys acc ++ s
                 /\ ((kp = kp0 /\ subseq s (map name (q :: ps)))
                     \/ exists q', kp = Some q'
                          /\ subseq (s ++ [name q']) (map name (q :: ps)))).
    { intros kw' Hb.
      destruct (IH kw' acc kp0 Hs' Hnd' (fresh_for_tail Hf) Hb)
        as (s & Hk & [[-> Hsub]|(q' & -> & Hsub)]);
        exists s; (split; [exact Hk|]).
      - left. split; [reflexivity | now apply subseq_skip].
      - right. exists q'. split; [reflexivity | now apply subseq_skip]. }
    destruct (kind_eqb (pkind q) VAR_KEYWORD) eqn:K.
    + apply kind_eqb_eq in K. intros Hb.
      destruct (@bind_keywords_only_var_keyword ps kw acc (Some q)
                  (sorted_after_var_keyword Hs K)) as (kp1 & E & Hkp).
      rewrite E in Hb. injection Hb as <- _ <-.
      exists []. rewrite app_nil_r. split; [reflexivity|]. right.
      destruct Hkp as [->|(q' & -> & Hin)].
      * exists q. split; [reflexivity|]. simpl. apply subseq_keep.
        apply subseq_nil_l.
      * exists q'. split; [reflexivity|]. simpl. apply subseq_skip.
        apply subseq_singleton. now apply in_map.
    + destruct (kind_eqb (pkind q) VAR_POSITIONAL); [apply Hskip|].
      destruct (Dict.pop (name q) kw) as [[v r]|].
      * destruct (kind_eqb (pkind q) POSITIONAL_ONLY); [discriminate|].
        intros Hb.
        destruct (IH r _ kp0 Hs' Hnd' (fresh_for_set v Hnd Hf) Hb)
          as (s & Hk & Hcase).
        rewrite keys_set_fresh in Hk by (apply Hf; now left).
        rewrite <- app_assoc in Hk. simpl in Hk.
        exists (name q :: s). split; [exact Hk|].
        destruct Hcase as [[-> Hsub]|(q' & -> & Hsub)].
        -- left. split; [reflexivity | now apply subseq_keep].
        -- right. exists q'. split; [reflexivity|]. simpl.
           now apply subseq_keep.
      * destruct (default q); [apply Hskip | discriminate].
Qed.

Lemma bind_keywords_then_keys (ps : Signature) (kwargs arguments a : dict value) :
  StronglySorted kind_le ps ->
  NoDup (map name ps) ->
  fresh_for ps arguments ->
  bind_keywords_then ps kwargs arguments = Ok a ->
  exists s, Dict.keys a = Dict.keys arguments ++ s /\ subseq s (map name ps).
Proof.
  intros Hs Hnd Hf. unfold bind_keywords_then.
  destruct (bind_keywords ps kwargs arguments None) as [[[a1 k1] kp]|e] eqn:E;
    simpl; [|discriminate].
  destruct (@bind_keywords_keys ps kwargs arguments None a1 k1 kp Hs Hnd Hf E)
    as (s & Hk & Hcase).
  unfold bind_leftover. destruct k1 as [|[x y] k1].
  - intros [= <-]. exists s. split; [exact Hk|].
    destruct Hcase as [[_ Hsub]|(q & _ & Hsub)]; [exact Hsub|].
    eapply subseq_app_l. exact Hsub.
  - destruct Hcase as [[-> _]|(q & -> & Hsub)]; [discriminate|].
    intros [= <-]. exists (s ++ [name q]). split; [|exact Hsub].
    rewrite keys_set_fresh, Hk, app_assoc; [reflexivity|].
    rewrite Hk, in_app_iff. intros [X|X].
    + apply (Hf (name q)); [|exact X].
      eapply subseq_In; [exact Hsub|]. rewrite in_app_iff. right. now left.
    + pose proof (subseq_NoDup Hsub Hnd) as Hnd1.
      apply NoDup_remove_2 in Hnd1. rewrite app_nil_r in Hnd1. contradiction.
Qed.

Lemma bind_from_keys (ps : Signature) (args : list value)
    (kwargs arguments a : dict value) :
  StronglySorted kind_le ps ->
  NoDup (map name ps) ->
  fresh_for ps arguments ->
  bind_from ps args kwargs arguments = Ok a ->
  exists s, Dict.keys a = Dict.keys arguments ++ s /\ subseq s (map name ps).
Proof.
  revert ps arguments.
  induction args as [|x args IH]; intros ps acc Hs Hnd Hf.
  - rewrite bind_from_no_args. now apply bind_keywords_then_keys.
  - destruct ps as [|q ps]; [discriminate|].
    assert (Hs' : StronglySorted kind_le ps) by now inversion Hs.
    assert (Hnd' : NoDup (map name ps)) by now inversion Hnd.
    assert (Hcons : forall (v : value) (a' : dict value),
               (exists s, Dict.keys a'
                          = Dict.keys (Dict.set (name q) v acc) ++ s
                          /\ subseq s (map name ps)) ->
               exists s, Dict.keys a' = Dict.keys acc ++ s
                         /\ subseq s (map name (q :: ps))).
    { intros v a' (s & Hk & Hsub).
      rewrite keys_set_fresh in Hk by (apply Hf; now left).
      rewrite <- app_assoc in Hk. exists (name q :: s).
      split; [exact Hk | now apply subseq_keep]. }
    unfold bind_from. simpl.
    destruct (kind_eqb (pkind q) VAR_KEYWORD || kind_eqb (pkind q) KEYWORD_ONLY);
      [discriminate|].
    destruct (kind_eqb (pkind q) VAR_POSITIONAL).
    + intros Hb. eapply Hcons.
      eapply bind_keywords_then_keys; try eassumption.
      now apply fresh_for_set.
    + destruct (Dict.mem (name q) kwargs
                && negb (kind_eqb (pkind q) POSITIONAL_ONLY)); [discriminate|].
      intros Hb. eapply Hcons.
      eapply IH; try eassumption. now apply fresh_for_set.
Qed.

Lemma bind_keys (sig : Signature) (args : list value) (kwargs a : dict value) :
  wf_sig sig -> bind sig args kwargs = Ok a ->
  subseq (Dict.keys a) (map name sig).
Proof.
  intros (Hnd & _ & Hs) Hb. rewrite bind_is_bind_from in Hb.
  destruct (@bind_from_keys sig args kwargs [] a Hs Hnd) as (s & -> & Hsub);
    [intros n _ []| exact Hb | exact Hsub].
Qed.

(** ** The order of the merged arguments *)
Lemma NoDup_names_inj (sig : Signature) (p q : Param) :
  NoDup (map name sig) -> In p sig -> In q sig -> name p = name q -> p = q.
Proof.
  intros Hnd Hp Hq Hn.
  destruct (In_nth_error _ _ Hp) as [i Hi].
  destruct (In_nth_error _ _ Hq) as [j Hj].
  assert (i = j) by (eapply NoDup_names_nth; eassumption).
  subst j. congruence.
Qed.

Lemma mem_set (k k' : string) (v : value) (d : dict value) :
  Dict.mem k' (Dict.set k v d) = (k =? k')%string || Dict.mem k' d.
Proof.
  unfold Dict.mem. rewrite DictFacts.get_set.
  now destruct (k =? k')%string.
Qed.

Lemma keys_fold_defaults (ps : Signature) (acc : dict value) :
  NoDup (map name ps) -> fresh_for ps acc ->
  Dict.keys (fold_left default_step ps acc)
  = Dict.keys acc ++ map name (filter has_default ps).
Proof.
  revert acc. induction ps as [|q ps IH]; intros acc Hnd Hf; simpl.
  - now rewrite app_nil_r.
  - assert (Hnd' : NoDup (map name ps)) by now inversion Hnd.
    unfold default_step at 2. unfold has_default at 1.
    destruct (default q) as [d|].
    + rewrite IH by (try assumption; now apply fresh_for_set).
      rewrite keys_set_fresh by (apply Hf; now left).
      now rewrite <- app_assoc.
    + apply IH; [exact Hnd' | eapply fresh_for_tail; exact Hf].
Qed.

Lemma keys_defaults (sig : Signature) :
  NoDup (map name sig) ->
  Dict.keys (Benchmark.defaults sig) = map name (filter has_default sig).
Proof.
  intros Hnd. rewrite defaults_fold, keys_fold_defaults; [reflexivity|exact Hnd|].
  intros n _ [].
Qed.

Lemma mem_defaults (sig : Signature) (q : Param) :
  NoDup (map name sig) -> In q sig ->
  Dict.mem (name q) (Benchmark.defaults sig) = has_default q.
Proof.
  intros Hnd Hq. apply eq_true_iff_eq.
  rewrite DictFacts.mem_true, keys_defaults by exact Hnd.
  rewrite in_map_iff. split.
  - intros (q' & Hn & Hin). apply filter_In in Hin. destruct Hin as [Hin Hd].
    now rewrite <- (@NoDup_names_inj sig q' q Hnd Hin Hq Hn).
  - intros Hd. exists q. split; [reflexivity|]. apply filter_In. now split.
Qed.

Lemma keys_update (acc a : dict value) :
  NoDup (Dict.keys a) ->
  Dict.keys (Dict.update acc a)
  = Dict.keys acc ++ filter (fun k => negb (Dict.mem k acc)) (Dict.keys a).
Proof.
  unfold Dict.update. revert acc.
  induction a as [|[k v] a IH]; intros acc Hnd; simpl.
  - now rewrite app_nil_r.
  - inversion Hnd as [|? ? Hk Hnd']; subst.
    rewrite IH by exact Hnd'.
    assert (Hext : filter (fun k' => negb (Dict.mem k' (Dict.set k v acc)))
                          (Dict.keys a)
                   = filter (fun k' => negb (Dict.mem k' acc)) (Dict.keys a)).
    { apply filter_ext_in. intros k' Hin. rewrite mem_set.
      destruct (String.eqb_spec k k') as [->|_]; [contradiction | reflexivity]. }
    rewrite Hext, DictFacts.keys_set.
    destruct (Dict.mem k acc); simpl; [reflexivity|].
    now rewrite <- app_assoc.
Qed.

Lemma filter_map_name (f : string -> bool) (sig : Signature) :
  filter f (map name sig) = map name (filter (fun q => f (name q)) sig).
Proof.
  induction sig as [|q ps IH]; simpl; [reflexivity|].
  destruct (f (name q)); simpl; now rewrite IH.
Qed.

Lemma merged_keys (func : Callable) (args : list value) (kwargs m : dict value) :
  wf_sig (signature func) ->
  Benchmark.func_args func args kwargs = Ok m ->
  subseq (Dict.keys m) (merged_order (signature func)).
Proof.
  intros Hwf. unfold Benchmark.func_args.
  destruct (bind (signature func) args kwargs) as [a|e] eqn:E; simpl;
    [|discriminate].
  intros [= <-].
  pose proof (@bind_keys (signature func) args kwargs a Hwf E) as Hsub.
  destruct Hwf as (Hnd & _ & _).
  rewrite keys_update by (eapply subseq_NoDup; eassumption).
  rewrite keys_defaults by exact Hnd. unfold merged_order.
  apply subseq_app; [apply subseq_refl|].
  apply (subseq_filter
           (fun k => negb (Dict.mem k (Benchmark.defaults (signature func)))))
    in Hsub.
  rewrite filter_map_name in Hsub.
  assert (Hext :
    filter (fun q => negb (Dict.mem (name q)
                             (Benchmark.defaults (signature func))))
           (signature func)
    = filter (fun p => negb (has_default p)) (signature func)).
  { apply filter_ext_in. intros q Hq. now rewrite mem_defaults. }
  rewrite Hext in Hsub. exact Hsub.
Qed.

Lemma filter_split_perm {A : Type} (f : A -> bool) (l : list A) :
  Permutation (filter f l ++ filter (fun x => negb (f x)) l) l.
Proof.
  induction l as [|x l IH]; simpl; [constructor|].
  destruct (f x); simpl.
  - now constructor.
  - rewrite <- Permutation_middle. now constructor.
Qed.

Lemma NoDup_merged_order (sig : Signature) :
  NoDup (map name sig) -> NoDup (merged_order sig).
Proof.
  intros Hnd. unfold merged_order. rewrite <- map_app.
  eapply Permutation_NoDup; [|exact Hnd].
  symmetry. apply Permutation_map, filter_split_perm.
Qed.

(** Two dictionaries whose keys follow one order, and which agree on the
    keys that [p] selects, have the same selected part, order included. *)
Lemma subseq_keys_cons (m : dict value) (h : string) (t : list string) :
  subseq (Dict.keys m) (h :: t) -> ~ In h t ->
  (subseq (Dict.keys m) t /\ ~ In h (Dict.keys m))
  \/ exists v m', m = (h, v) :: m' /\ subseq (Dict.keys m') t
                  /\ ~ In h (Dict.keys m').
Proof.
  intros Hs Hh. inversion Hs as [|x s l Hs'|x s l Hs' E]; subst.
  - left. split; [exact Hs'|]. intros Hin. apply Hh.
    eapply subseq_In; eassumption.
  - right. destruct m as [|[k v] m']; [discriminate|].
    simpl in E. injection E as -> ->.
    exists v, m'. repeat split; [exact Hs'|].
    intros Hin. apply Hh. eapply subseq_In; eassumption.
Qed.

Lemma filter_keys_ext (order : list string) (p : string -> bool)
    (m1 m2 : dict value) :
  NoDup order ->
  subseq (Dict.keys m1) order -> subseq (Dict.keys m2) order ->
  (forall k, p k = true -> Dict.get k m1 = Dict.get k m2) ->
  Dict.filter_keys p m1 = Dict.filter_keys p m2.
Proof.
  revert m1 m2. induction order as [|h t IH]; intros m1 m2 Hnd H1 H2 Hg.
  - inversion H1 as [E| |]. inversion H2 as [E'| |].
    destruct m1; [|discriminate]. destruct m2; [|discriminate]. reflexivity.
  - inversion Hnd as [|? ? Hh Hnd']; subst.
    destruct (@subseq_keys_cons m1 h t H1 Hh)
      as [[S1 N1]|(v1 & m1' & -> & S1 & N1)],
      (@subseq_keys_cons m2 h t H2 Hh)
      as [[S2 N2]|(v2 & m2' & -> & S2 & N2)].
    + now apply IH.
    + assert (Hp : p h = false).
      { destruct (p h) eqn:P; [|reflexivity]. specialize (Hg h P).
        simpl in Hg. rewrite String.eqb_refl in Hg.
        apply DictFacts.get_None in N1. congruence. }
      simpl. rewrite Hp. apply IH; try assumption.
      intros k Pk. rewrite (Hg k Pk). simpl.
      destruct (String.eqb_spec h k) as [->|_]; [congruence | reflexivity].
    + assert (Hp : p h = false).
      { destruct (p h) eqn:P; [|reflexivity]. specialize (Hg h P).
        simpl in Hg. rewrite String.eqb_refl in Hg.
        apply DictFacts.get_None in N2. congruence. }
      simpl. rewrite Hp. apply IH; try assumption.
      intros k Pk. rewrite <- (Hg k Pk). simpl.
      destruct (String.eqb_spec h k) as [->|_]; [congruence | reflexivity].
    + assert (Htail : Dict.filter_keys p m1' = Dict.filter_keys p m2').
      { apply IH; try assumption. intros k Pk.
        destruct (String.eqb_spec h k) as [<-|Hne].
        - apply DictFacts.get_None in N1, N2. congruence.
        - specialize (Hg k Pk). simpl in Hg.
          destruct (String.eqb_spec h k); [contradiction | exact Hg]. }
      simpl. destruct (p h) eqn:P; [|exact Htail].
      specialize (Hg h P). simpl in Hg. rewrite String.eqb_refl in Hg.
      injection Hg as ->. now rewrite Htail.
Qed.

Section Underscore.
Context `{Externals}.
Import Benchmark.

  (** C4.  Parameters whose name begins with an underscore enter neither the
      fingerprint nor the stored parameter record: two calls whose merged
      arguments agree on every name that does not begin with an underscore
      get the same fingerprint and the same serialized record from
      [_get_arg_data], on which [exists], [run] and [add] rely. *)
Theorem underscore_parameters_ignored (func : Callable) (c1 c2 : call)
      (m1 m2 : dict value) :
    wf_sig (signature func) ->
    func_args func (fst c1) (snd c1) = Ok m1 ->
    func_args func (fst c2) (snd c2) = Ok m2 ->
    (forall key, startswith_underscore key = false ->
                 Dict.get key m1 = Dict.get key m2) ->
    _get_arg_data func (fst c1) (snd c1) = _get_arg_data func (fst c2) (snd c2)
    /\ exists fingp arg_data,
         _get_arg_data func (fst c1) (snd c1) = Ok (fingp, arg_data)
         /\ arg_data =
            JDict [("func", JStr (__name__ func));
                   ("args", to_json
                      (VDict (Dict.filter_keys
                                (fun key => negb (startswith_underscore key))
                                m1)))]
         /\ forall key, startswith_underscore key = true ->
              Dict.get key (Dict.filter_keys
                              (fun key => negb (startswith_underscore key)) m1)
              = None.
  Proof.
    intros Hwf E1 E2 Hg.
    assert (Hf : Dict.filter_keys (fun key => negb (startswith_underscore key)) m1
                 = Dict.filter_keys (fun key => negb (startswith_underscore key)) m2).
    { apply filter_keys_ext with (order := merged_order (signature func)).
      - apply NoDup_merged_order, Hwf.
      - eapply merged_keys; eassumption.
      - eapply merged_keys; eassumption.
      - intros k Pk. apply Hg. now apply negb_true_iff in Pk. }
    unfold _get_arg_data. rewrite E1, E2. simpl. unfold arg_data_of.
    rewrite Hf. split; [reflexivity|].
    eexists _, _. split; [reflexivity|]. split; [reflexivity|].
    intros key Hk. apply DictFacts.get_None.
    unfold Dict.keys, Dict.filter_keys. rewrite in_map_iff.
    intros ([k v] & Hkv & Hin). simpl in Hkv. subst k.
    apply filter_In in Hin. simpl in Hin. destruct Hin as [_ Hin].
    rewrite Hk in Hin. discriminate.
  Qed.
End Underscore.

(** ** One Entry per name and arguments *)
Section Identity.
Context `{Externals}.
Import Benchmark.

Lemma exists_contains (self : t) (func : Callable) (args : list value)
      (kwargs : dict value) (fingp : string) (arg_data : json) :
    _get_arg_data func args kwargs = Ok (fingp, arg_data) ->
    exists_ self func args kwargs
    = Ok (BenchmarkDb.contains_fingerprint fingp self).
  Proof. intros Hd. unfold exists_. now rewrite Hd. Qed.

Lemma add_success_contains (self self1 : t) (w w1 : World) (func : Callable)
      (args : list value) (kwargs : dict value) (fingp : string)
      (arg_data : json) :
    _get_arg_data func args kwargs = Ok (fingp, arg_data) ->
    add self w func args kwargs = (Ok tt, self1, w1) ->
    BenchmarkDb.contains_fingerprint fingp self1 = true.
  Proof.
    intros Hd. unfold add. rewrite (exists_contains self _ _ _ Hd).
    destruct (BenchmarkDb.contains_fingerprint fingp self) eqn:C.
    - intros [= <- _]. exact C.
    - unfold run. rewrite Hd.
      destruct (outcome (body func w args kwargs)) as [v|e].
      + intros [= <- _]. unfold BenchmarkDb.add.
        apply (DbFacts.contains_insert
                 {| fingerprint_of := fingp; parameters := arg_data;
                    result_of := _ |}).
      + destruct (exc_is_Exception e); discriminate.
  Qed.

Lemma fingerprint_identifying (g h : Callable) (m1 m2 : dict value) :
    __name__ g = __name__ h ->
    value_equal (identifying m1) (identifying m2) ->
    fingerprint (arg_data_of g m1) = fingerprint (arg_data_of h m2).
  Proof.
    intros Hn Hv. apply fingerprint_value_equal. unfold arg_data_of.
    rewrite Hn. eapply ve_dict; [|reflexivity|].
    - repeat constructor; simpl; intuition discriminate.
    - constructor; [apply ve_same|]. constructor; [exact Hv | constructor].
  Qed.

Lemma add_then_known (g h : Callable) (c1 c2 : call) (m1 m2 : dict value)
      (self self1 : t) (w w1 : World) :
    __name__ g = __name__ h ->
    func_args g (fst c1) (snd c1) = Ok m1 ->
    func_args h (fst c2) (snd c2) = Ok m2 ->
    value_equal (identifying m1) (identifying m2) ->
    add self w g (fst c1) (snd c1) = (Ok tt, self1, w1) ->
    exists_ self1 h (fst c2) (snd c2) = Ok true
    /\ add self1 w1 h (fst c2) (snd c2) = (Ok tt, self1, w1).
  Proof.
    intros Hn E1 E2 Hv Hadd.
    assert (D1 : _get_arg_data g (fst c1) (snd c1)
                 = Ok (fingerprint (arg_data_of g m1),
                       to_json (arg_data_of g m1))).
    { unfold _get_arg_data. now rewrite E1. }
    assert (D2 : _get_arg_data h (fst c2) (snd c2)
                 = Ok (fingerprint (arg_data_of g m1),
                       to_json (arg_data_of h m2))).
    { unfold _get_arg_data. rewrite E2. simpl.
      now rewrite (@fingerprint_identifying g h m1 m2 Hn Hv). }
    pose proof (@add_success_contains _ _ _ _ _ _ _ _ _ D1 Hadd) as C.
    assert (Hex : exists_ self1 h (fst c2) (snd c2) = Ok true).
    { rewrite (exists_contains self1 _ _ _ D2). now rewrite C. }
    split; [exact Hex|]. unfold add. now rewrite Hex.
  Qed.

  (** C8.  What identifies a computation is the name of the callable and its
      merged arguments without the underscore ones: after [add] has
      succeeded for a callable, [exists] is true for any callable of the
      same name called with value-equal such arguments, whatever its body,
      and [add] for it returns without calling it or writing anything. *)
Theorem identity_is_name_and_arguments (g h : Callable) (c1 c2 : call)
      (m1 m2 : dict value) (self self1 : t) (w w1 : World) :
    __name__ g = __name__ h ->
    func_args g (fst c1) (snd c1) = Ok m1 ->
    func_args h (fst c2) (snd c2) = Ok m2 ->
    value_equal (identifying m1) (identifying m2) ->
    add self w g (fst c1) (snd c1) = (Ok tt, self1, w1) ->
    exists_ self1 h (fst c2) (snd c2) = Ok true
    /\ add self1 w1 h (fst c2) (snd c2) = (Ok tt, self1, w1)
    /\ (forall (body' : World -> list value -> dict value -> Behaviour),
          let h' := {| __name__ := __name__ h; signature := signature h;
                       body := body' |} in
          exists_ self1 h' (fst c2) (snd c2) = Ok true
          /\ add self1 w1 h' (fst c2) (snd c2) = (Ok tt, self1, w1)).
  Proof.
    intros Hn E1 E2 Hv Hadd.
    destruct (@add_then_known g h c1 c2 m1 m2 self self1 w w1 Hn E1 E2 Hv Hadd)
      as [Hex Hadd2].
    split; [exact Hex|]. split; [exact Hadd2|].
    intros body' h'.
    apply (@add_then_known g h' c1 c2 m1 m2 self self1 w w1); assumption.
  Qed.

  (** C2.  [add] runs the computation and writes an Entry only when
      [exists] is false: when [exists] is true it returns at once, leaving
      the store and the world as they are, and otherwise it is [run].
      After an [add] that succeeded, [exists] is true, and a second [add]
      of the same callable with value-equal arguments changes neither the
      store nor the count of calls, and [exists] is true after it too. *)
Theorem add_runs_once (func : Callable) (c1 : call) :
    (forall self w,
        exists_ self func (fst c1) (snd c1) = Ok true ->
        add self w func (fst c1) (snd c1) = (Ok tt, self, w))
    /\ (forall self w,
          exists_ self func (fst c1) (snd c1) = Ok false ->
          add self w func (fst c1) (snd c1)
          = run self w func (fst c1) (snd c1))
    /\ (forall self w self1 w1 (c2 : call) m1 m2,
          func_args func (fst c1) (snd c1) = Ok m1 ->
          func_args func (fst c2) (snd c2) = Ok m2 ->
          value_equal (identifying m1) (identifying m2) ->
          add self w func (fst c1) (snd c1) = (Ok tt, self1, w1) ->
          exists_ self1 func (fst c1) (snd c1) = Ok true
          /\ exists self2 w2,
               add self1 w1 func (fst c2) (snd c2) = (Ok tt, self2, w2)
               /\ self2 = self1
               /\ calls w2 = calls w1
               /\ exists_ self2 func (fst c2) (snd c2) = Ok true).
  Proof.
    split; [|split].
    - intros self w Hex. unfold add. now rewrite Hex.
    - intros self w Hex. unfold add. now rewrite Hex.
    - intros self w self1 w1 c2 m1 m2 E1 E2 Hv Hadd. split.
      + apply (@add_then_known func func c1 c1 m1 m1 self self1 w w1
                 eq_refl E1 E1 (ve_same _) Hadd).
      + destruct (@add_then_known func func c1 c2 m1 m2 self self1 w w1
                    eq_refl E1 E2 Hv Hadd) as [Hex Hadd2].
        exists self1, w1. repeat split; assumption.
  Qed.
End Identity.

(** ** Objects: what a yielded entry shares *)
Module ObjectFacts.
Import Objects.

  (** Induction on a serialized tree, through its sequences and mappings. *)
Lemma json_nested_ind (P : json -> Prop) :
    P JNull ->
    (forall b, P (JBool b)) ->
    (forall q, P (JNum q)) ->
    (forall s, P (JStr s)) ->
    (forall l, Forall P l -> P (JList l)) ->
    (forall d, Forall (fun kv => P (snd kv)) d -> P (JDict d)) ->
    forall j, P j.
  Proof.
    intros HN HB HQ HS HL HD.
    fix IH 1. intros [| b | q | s | l | d].
    - exact HN.
    - apply HB.
    - apply HQ.
    - apply HS.
    - apply HL. induction l as [|x l IHl]; constructor; [apply IH | exact IHl].
    - apply HD. induction d as [|[k x] d IHd]; constructor;
        [apply IH | exact IHd].
  Qed.

Lemma traverse_impl {A B : Type} (f g : A -> option B) (l : list A)
      (ys : list B) :
    (forall x y, In x l -> f x = Some y -> g x = Some y) ->
    traverse f l = Some ys -> traverse g l = Some ys.
  Proof.
    revert ys. induction l as [|x l IH]; intros ys Himp; simpl; [easy|].
    destruct (f x) as [y|] eqn:Fx; [|discriminate].
    destruct (traverse f l) as [ys'|] eqn:Fl; [|discriminate].
    intros [= <-].
    rewrite (Himp x y (or_introl eq_refl) Fx).
    rewrite (IH ys'); [reflexivity | | reflexivity].
    intros x' y' Hin. apply Himp. now right.
  Qed.

Lemma read_deeper (n : nat) (h : heap) (v : hval) (j : json) :
    read n h v = Some j -> read (S n) h v = Some j.
  Proof.
    revert v j. induction n as [|n IH]; intros [a|l] j; try easy.
    change (read (S n) h (HRef l))
      with (match nth_error h l with
            | Some (OList items) =>
                option_map JList (traverse (read n h) items)
            | Some (ODict items) =>
                option_map JDict
                  (traverse (fun kv : string * hval =>
                               option_map (pair (fst kv)) (read n h (snd kv)))
                            items)
            | None => None
            end).
    change (read (S (S n)) h (HRef l))
      with (match nth_error h l with
            | Some (OList items) =>
                option_map JList (traverse (read (S n) h) items)
            | Some (ODict items) =>
                option_map JDict
                  (traverse (fun kv : string * hval =>
                               option_map (pair (fst kv))
                                          (read (S n) h (snd kv)))
                            items)
            | None => None
            end).
    destruct (nth_error h l) as [[items|items]|]; [| |discriminate].
    - destruct (traverse _ items) as [ys|] eqn:T; [|discriminate].
      intros [= <-].
      erewrite traverse_impl; [reflexivity | | exact T].
      intros [k x] y _. cbn [fst snd].
      destruct (read n h x) as [jx|] eqn:R; [|discriminate].
      intros [= <-]. now rewrite (IH x jx R).
    - destruct (traverse _ items) as [ys|] eqn:T; [|discriminate].
      intros [= <-].
      erewrite traverse_impl; [reflexivity | | exact T].
      intros x y _ R. now apply IH.
  Qed.

Lemma read_le (n m : nat) (h : heap) (v : hval) (j : json) :
    (n <= m)%nat -> read n h v = Some j -> read m h v = Some j.
  Proof.
    induction 1 as [|m _ IH]; intros R; [exact R|].
    apply read_deeper. now apply IH.
  Qed.

Lemma read_extend (n : nat) (h ext : heap) (v : hval) (j : json) :
    read n h v = Some j -> read n (h ++ ext) v = Some j.
  Proof.
    revert v j. induction n as [|n IH]; intros [a|l] j; try easy.
    simpl. destruct (nth_error h l) as [o|] eqn:E; [|discriminate].
    rewrite nth_error_app1 by (apply nth_error_Some; congruence).
    rewrite E. destruct o as [items|items].
    - destruct (traverse _ items) as [ys|] eqn:T; [|discriminate].
      intros [= <-].
      erewrite traverse_impl; [reflexivity | | exact T].
      intros [k x] y _. simpl.
      destruct (read n h x) as [jx|] eqn:R; [|discriminate].
      intros [= <-]. now rewrite (IH x jx R).
    - destruct (traverse _ items) as [ys|] eqn:T; [|discriminate].
      intros [= <-].
      erewrite traverse_impl; [reflexivity | | exact T].
      intros x y _ R. now apply IH.
  Qed.

Lemma fresh_le (n m : nat) (v : hval) : (n <= m)%nat -> fresh m v -> fresh n v.
  Proof. destruct v; simpl; [trivial | lia]. Qed.

Lemma obj_fresh_le (n m : nat) (o : obj) :
    (n <= m)%nat -> obj_fresh m o -> obj_fresh n o.
  Proof.
    intros Hle. apply Forall_impl. intros v. now apply fresh_le.
  Qed.

Lemma load_list_loaded (l : list json) :
    Forall (fun j => forall h, loaded h j (load j h)) l ->
    forall h, loaded_list h l (load_list load l h).
  Proof.
    induction 1 as [|x l Hx _ IH]; intros h.
    - exists []. simpl. rewrite app_nil_r.
      split; [reflexivity|]. split; [constructor|]. split; [constructor|].
      exists O. reflexivity.
    - simpl. destruct (load x h) as [v h1] eqn:E1.
      specialize (Hx h). rewrite E1 in Hx.
      destruct Hx as (e1 & Hh1 & Hv & He1 & n1 & R1). simpl in *. subst h1.
      specialize (IH (h ++ e1)).
      destruct (load_list load l (h ++ e1)) as [vs h2] eqn:E2.
      destruct IH as (e2 & Hh2 & Hvs & He2 & n2 & R2). simpl in *. subst h2.
      assert (Hlen : (List.length h <= List.length (h ++ e1))%nat)
        by (rewrite length_app; lia).
      exists (e1 ++ e2). repeat split.
      + now rewrite app_assoc.
      + constructor; [exact Hv|].
        eapply Forall_impl; [|exact Hvs]. intros y. now apply fresh_le.
      + apply Forall_app. split; [exact He1|].
        eapply Forall_impl; [|exact He2]. intros o. now apply obj_fresh_le.
      + exists (Nat.max n1 n2). simpl.
        rewrite (@read_le n1 (Nat.max n1 n2) _ v x (Nat.le_max_l _ _)
                   (@read_extend n1 (h ++ e1) e2 v x R1)).
        erewrite traverse_impl; [reflexivity | | exact R2].
        intros y jy _. apply read_le. apply Nat.le_max_r.
  Qed.

Lemma load_items_loaded (d : list (string * json)) :
    Forall (fun kv => forall h, loaded h (snd kv) (load (snd kv) h)) d ->
    forall h, loaded_items h d (load_items load d h).
  Proof.
    induction 1 as [|[k x] d Hx _ IH]; intros h.
    - exists []. simpl. rewrite app_nil_r.
      split; [reflexivity|]. split; [constructor|]. split; [constructor|].
      exists O. reflexivity.
    - simpl. destruct (load x h) as [v h1] eqn:E1.
      specialize (Hx h). simpl in Hx. rewrite E1 in Hx.
      destruct Hx as (e1 & Hh1 & Hv & He1 & n1 & R1). simpl in *. subst h1.
      specialize (IH (h ++ e1)).
      destruct (load_items load d (h ++ e1)) as [kvs h2] eqn:E2.
      destruct IH as (e2 & Hh2 & Hvs & He2 & n2 & R2). simpl in *. subst h2.
      assert (Hlen : (List.length h <= List.length (h ++ e1))%nat)
        by (rewrite length_app; lia).
      exists (e1 ++ e2). repeat split.
      + now rewrite app_assoc.
      + constructor; [exact Hv|].
        eapply Forall_impl; [|exact Hvs]. intros y. now apply fresh_le.
      + apply Forall_app. split; [exact He1|].
        eapply Forall_impl; [|exact He2]. intros o. now apply obj_fresh_le.
      + exists (Nat.max n1 n2). simpl.
        rewrite (@read_le n1 (Nat.max n1 n2) _ v x (Nat.le_max_l _ _)
                   (@read_extend n1 (h ++ e1) e2 v x R1)).
        cbn [option_map].
        erewrite traverse_impl; [reflexivity | | exact R2].
        intros [k' y] jy _. cbn [fst snd].
        destruct (read n2 _ y) as [jy'|] eqn:R; [|discriminate].
        intros [= <-].
        now rewrite (@read_le n2 (Nat.max n1 n2) _ y jy' (Nat.le_max_r _ _) R).
  Qed.

Lemma nth_error_last {A : Type} (l : list A) (x : A) :
    nth_error (l ++ [x]) (List.length l) = Some x.
  Proof.
    rewrite nth_error_app2 by lia. now rewrite Nat.sub_diag.
  Qed.

Lemma load_loaded (j : json) : forall h, loaded h j (load j h).
  Proof.
    induction j as [| b | q | s | l IH | d IH] using json_nested_ind; intros h;
      try (exists []; simpl; rewrite app_nil_r;
           split; [reflexivity|]; split; [exact I|]; split; [constructor|];
           exists O; reflexivity).
    - simpl. pose proof (load_list_loaded IH h) as Hl.
      destruct (load_list load l h) as [vs h2].
      destruct Hl as (e & Hh2 & Hvs & He & n & R). simpl in *. subst h2.
      exists (e ++ [OList vs]). unfold alloc. cbn [fst snd fresh].
      split; [|split; [|split]].
      + now rewrite app_assoc.
      + rewrite length_app. lia.
      + apply Forall_app. split; [exact He|]. constructor; [exact Hvs|constructor].
      + exists (S n). cbn [read]. rewrite nth_error_last.
        erewrite traverse_impl; [reflexivity | | exact R].
        intros y jy _. apply read_extend.
    - simpl. pose proof (load_items_loaded IH h) as Hl.
      destruct (load_items load d h) as [kvs h2].
      destruct Hl as (e & Hh2 & Hvs & He & n & R). simpl in *. subst h2.
      exists (e ++ [ODict kvs]). unfold alloc. cbn [fst snd fresh].
      split; [|split; [|split]].
      + now rewrite app_assoc.
      + rewrite length_app. lia.
      + apply Forall_app. split; [exact He|]. constructor; [exact Hvs|constructor].
      + exists (S n). cbn [read]. rewrite nth_error_last.
        erewrite traverse_impl; [reflexivity | | exact R].
        intros [k y] jy _. cbn [fst snd].
        destruct (read n _ y) as [jy'|] eqn:Ry; [|discriminate].
        intros [= <-]. now rewrite (@read_extend n _ _ y jy' Ry).
  Qed.

  (** [dict.copy()] is shallow: the copy has the items of the original, and
      with them the nested objects. *)
Lemma copy_is_shallow (h : heap) (l : loc) (items : list (string * hval)) :
    nth_error h l = Some (ODict items) ->
    copy (HRef l) h = (HRef (List.length h), h ++ [ODict items]).
  Proof. intros Hn. unfold copy. now rewrite Hn. Qed.

Lemma write_length (l : loc) (o : obj) (h : heap) :
    List.length (write l o h) = List.length h.
  Proof.
    revert l. induction h as [|x h IH]; intros [|l]; simpl; try reflexivity.
    now rewrite IH.
  Qed.

Lemma write_other (l i : loc) (o : obj) (h : heap) :
    i <> l -> nth_error (write l o h) i = nth_error h i.
  Proof.
    revert l i. induction h as [|x h IH]; intros [|l] [|i] Hne; simpl;
      try reflexivity; try congruence.
    apply IH. congruence.
  Qed.

Lemma yield_entry_spec (e : Entry) (h : heap) :
    exists l ext,
      yield_entry e h = (HRef l, h ++ ext)
      /\ (List.length h <= l)%nat
      /\ Forall (obj_fresh (List.length h)) ext
      /\ exists n, read n (h ++ ext) (HRef l) = Some (entry_json e).
  Proof.
    unfold yield_entry, entry_json.
    set (d := [("fingerprint", JStr (fingerprint_of e));
               ("parameters", parameters e); ("result", result_of e)]).
    change (load (JDict d) h)
      with (let '(kvs, h') := load_items load d h in alloc (ODict kvs) h').
    assert (Hd : Forall (fun kv : string * json =>
                           forall h', loaded h' (snd kv) (load (snd kv) h')) d).
    { apply Forall_forall. intros kv _ h'. apply load_loaded. }
    pose proof (load_items_loaded Hd h) as Hl.
    destruct (load_items load d h) as [kvs h2].
    destruct Hl as (e2 & Hh2 & Hvs & He & n & R). simpl in Hh2, Hvs, R.
    subst h2. unfold alloc.
    rewrite (@copy_is_shallow _ _ kvs (nth_error_last (h ++ e2) (ODict kvs))).
    exists (List.length ((h ++ e2) ++ [ODict kvs])),
           (e2 ++ [ODict kvs] ++ [ODict kvs]).
    split; [|split; [|split]].
    - f_equal. now rewrite <- !app_assoc.
    - rewrite !length_app. lia.
    - apply Forall_app. split; [exact He|].
      constructor; [exact Hvs|]. constructor; [exact Hvs | constructor].
    - exists (S n). cbn [read].
      replace (h ++ e2 ++ [ODict kvs] ++ [ODict kvs])
        with (((h ++ e2) ++ [ODict kvs]) ++ [ODict kvs])
        by (now rewrite <- !app_assoc).
      rewrite nth_error_last.
      erewrite traverse_impl; [reflexivity | | exact R].
      intros [k y] jy _. cbn [fst snd].
      destruct (read n _ y) as [jy'|] eqn:Ry; [|discriminate].
      intros [= <-].
      rewrite <- app_assoc.
      now rewrite (@read_extend n (h ++ e2) ([ODict kvs] ++ [ODict kvs]) y jy' Ry).
  Qed.

End ObjectFacts.

(** * The properties at the examples *)

Import Demo.

Lemma f_sig_wf : wf_sig Demo.f_sig.
Proof.
  split; [|split].
  - repeat constructor; simpl; intuition discriminate.
  - repeat constructor; intros Hv; discriminate Hv.
  - repeat constructor; unfold kind_le; simpl; lia.
Qed.

(** [failing(3)] raises [ValueError]: the store stays empty and the report
    is printed. *)
Lemma run_failure_leaves_store_witness :
  Benchmark._get_arg_data Demo.failing [VInt 3] []
  = Ok (fingerprint (Benchmark.arg_data_of Demo.failing Demo.merged_3),
        to_json (Benchmark.arg_data_of Demo.failing Demo.merged_3))
  /\ outcome (body Demo.failing Demo.w0 [VInt 3] [])
     = Raise (Demo.ValueError "boom")
  /\ exc_is_Exception (Demo.ValueError "boom") = true
  /\ snd (fst (Benchmark.run BenchmarkDb.empty Demo.w0 Demo.failing
                 [VInt 3] []))
     = BenchmarkDb.empty.
Proof.
  split; [reflexivity|]. split; [reflexivity|]. split; [reflexivity|].
  pose proof (@run_failure_leaves_store Demo.externals BenchmarkDb.empty
                Demo.w0 Demo.failing [VInt 3] [] _ _ _
                eq_refl eq_refl eq_refl) as P.
  destruct (Benchmark.run BenchmarkDb.empty Demo.w0 Demo.failing [VInt 3] [])
    as [[r self'] w'].
  exact (proj1 (proj2 P)).
Defined.

(** C1 as the claim states it fails for an exception that is not an
    [Exception]: [exiting(3)] raises [SystemExit], which [except Exception]
    does not catch; it reaches the caller and the store is untouched, but
    neither the parameter set nor a trace is printed. *)
Lemma run_failure_not_reported :
  outcome (body Demo.exiting Demo.w0 [VInt 3] [])
  = Raise (Demo.SystemExit "1")
  /\ (let '(r, self', w') :=
        Benchmark.run BenchmarkDb.empty Demo.w0 Demo.exiting [VInt 3] [] in
      r = Raise (Demo.SystemExit "1")
      /\ self' = BenchmarkDb.empty
      /\ console_out w' = console_out Demo.w0
      /\ console_out w'
         <> Benchmark.failure_report
              (to_json (Benchmark.arg_data_of Demo.exiting Demo.merged_3))
              (Demo.SystemExit "1") (console_out Demo.w0)).
Proof.
  split; [reflexivity|]. vm_compute.
  split; [reflexivity|]. split; [reflexivity|]. split; [reflexivity|].
  discriminate.
Qed.

(** [f()] lacks the required [x]. *)
Lemma unbound_call_raises_witness :
  bind (signature Demo.f) [] []
  = Raise (TypeError "missing a required argument: 'x'")
  /\ (Benchmark.exists_ BenchmarkDb.empty Demo.f [] []
      = Raise (TypeError "missing a required argument: 'x'")
      /\ Benchmark.run BenchmarkDb.empty Demo.w0 Demo.f [] []
         = (Raise (TypeError "missing a required argument: 'x'"),
            BenchmarkDb.empty, Demo.w0)
      /\ Benchmark.add BenchmarkDb.empty Demo.w0 Demo.f [] []
         = (Raise (TypeError "missing a required argument: 'x'"),
            BenchmarkDb.empty, Demo.w0)).
Proof.
  split; [reflexivity|].
  apply (@unbound_call_raises Demo.externals BenchmarkDb.empty Demo.w0 Demo.f
           [] [] (TypeError "missing a required argument: 'x'")).
  reflexivity.
Defined.

(** The other ways of not binding: an unknown keyword, too many positional
    arguments. *)
Example bind_unknown_keyword :
  bind (signature Demo.f) [VInt 1] [("y", VInt 2)]
  = Raise (TypeError "got an unexpected keyword argument 'y'").
Proof. reflexivity. Qed.

Example bind_too_many_positional :
  bind (signature Demo.f) [VInt 1; VInt 2; VStr "d"; VInt 4] []
  = Raise (TypeError "too many positional arguments").
Proof. reflexivity. Qed.

(** [run(f, 1)] *)
Lemma run_success_record_witness :
  Benchmark._get_arg_data Demo.f [VInt 1] []
  = Ok (fingerprint (Benchmark.arg_data_of Demo.f Demo.merged_1),
        to_json (Benchmark.arg_data_of Demo.f Demo.merged_1))
  /\ outcome (body Demo.f Demo.w0 [VInt 1] [])
     = Ok (VDict [("r1", VInt 1); ("r2", VStr "test")])
  /\ calls (snd (Benchmark.run BenchmarkDb.empty Demo.w0 Demo.f [VInt 1] []))
     = 1%nat.
Proof.
  split; [reflexivity|]. split; [reflexivity|].
  pose proof (@run_success_record Demo.externals BenchmarkDb.empty Demo.w0
                Demo.f [VInt 1] [] _ _ _ eq_refl eq_refl) as P.
  cbv zeta in P.
  destruct (Benchmark.run BenchmarkDb.empty Demo.w0 Demo.f [VInt 1] [])
    as [[r self'] w'].
  destruct P as (runtime & _ & _ & _ & _ & _ & Hcalls). exact Hcalls.
Defined.

(** [f(1, _test=None)] and [f(_test=None, default="default", x=1)]: the
    argument [x] by keyword, the keywords in another order, the default
    written out. *)
Lemma same_parameters_example :
  same_parameters Demo.f_sig
    ([VInt 1], [("_test", VNone)])
    ([], [("_test", VNone); ("default", VStr "default"); ("x", VInt 1)]).
Proof.
  unfold same_parameters.
  apply rst_trans with (y := ([], [("_test", VNone); ("x", VInt 1)]));
    [|apply rst_trans
        with (y := ([], [("_test", VNone); ("x", VInt 1);
                         ("default", VStr "default")]))].
  - apply rst_step.
    split; [split; simpl; intuition discriminate|].
    split; [split; simpl; intuition discriminate|].
    apply (@positional_as_keyword Demo.f_sig [] (VInt 1) [("_test", VNone)]
             (mkParam "x" POSITIONAL_OR_KEYWORD None));
      [reflexivity | reflexivity | simpl; intuition discriminate].
  - apply rst_step.
    split; [split; simpl; intuition discriminate|].
    split; [split; simpl; intuition discriminate|].
    apply (@default_supplied Demo.f_sig []
             [("_test", VNone); ("x", VInt 1)]
             (mkParam "default" POSITIONAL_OR_KEYWORD (Some (VStr "default")))
             (VStr "default") 2%nat);
      [reflexivity | reflexivity | left; split; [reflexivity | simpl; lia]
      | simpl; intuition discriminate].
  - apply rst_step.
    split; [split; simpl; intuition discriminate|].
    split; [split; simpl; intuition discriminate|].
    apply keywords_reordered.
    + repeat constructor; simpl; intuition discriminate.
    + simpl. apply perm_skip. apply perm_swap.
Defined.

(** [h(1)] and [h(1, 2)], for [def h(a, b=2, /)]: the default of a
    positional-only parameter left out and written out.  Both calls bind to
    the same arguments and get the same fingerprint. *)
Lemma same_parameters_positional_only :
  same_parameters Demo.h_sig ([VInt 1], []) ([VInt 1; VInt 2], [])
  /\ Benchmark.func_args Demo.h [VInt 1] []
     = Ok [("b", VInt 2); ("a", VInt 1)]
  /\ Benchmark.func_args Demo.h [VInt 1; VInt 2] []
     = Ok [("b", VInt 2); ("a", VInt 1)]
  /\ Benchmark._get_arg_data Demo.h [VInt 1] []
     = Benchmark._get_arg_data Demo.h [VInt 1; VInt 2] [].
Proof.
  split; [|split; [reflexivity|split; reflexivity]].
  apply rst_step.
  split; [split; simpl; intuition|].
  split; [split; simpl; intuition|].
  apply (@default_supplied_by_position Demo.h_sig [VInt 1] []
           (mkParam "b" POSITIONAL_ONLY (Some (VInt 2))) (VInt 2));
    [reflexivity | reflexivity | left; reflexivity | simpl; intuition].
Qed.

(** A keyword argument named [self] or [func] cannot be received by
    [exists], [run] or [add]: a call that carries one is related to no other
    call. *)
Lemma same_parameters_receivable (sig : Signature) (c1 c2 : call) :
  same_parameters sig c1 c2 ->
  ~ receivable c1 \/ ~ receivable c2 ->
  c1 = c2.
Proof.
  intros Hs. induction Hs as [c1 c2 (H1 & H2 & _) | c | c1 c2 _ IH
                             | c1 c2 c3 _ IH1 _ IH2]; intros Hn.
  - destruct Hn as [Hn|Hn]; contradiction.
  - reflexivity.
  - symmetry. apply IH. tauto.
  - destruct Hn as [Hn|Hn].
    + assert (E : c1 = c2) by (apply IH1; now left). subst c2.
      apply IH2. now left.
    + assert (E : c2 = c3) by (apply IH2; now right). subst c3.
      apply IH1. now right.
Qed.

Lemma fingerprint_same_parameters_witness :
  wf_sig (signature Demo.f)
  /\ same_parameters (signature Demo.f)
       ([VInt 1], [("_test", VNone)])
       ([], [("_test", VNone); ("default", VStr "default"); ("x", VInt 1)])
  /\ same_fingerprint
       (Benchmark._get_arg_data Demo.f [VInt 1] [("_test", VNone)])
       (Benchmark._get_arg_data Demo.f []
          [("_test", VNone); ("default", VStr "default"); ("x", VInt 1)])
  /\ forall self,
       result_rel eq
         (Benchmark.exists_ self Demo.f [VInt 1] [("_test", VNone)])
         (Benchmark.exists_ self Demo.f []
            [("_test", VNone); ("default", VStr "default"); ("x", VInt 1)]).
Proof.
  split; [exact f_sig_wf|]. split; [exact same_parameters_example|].
  exact (@fingerprint_same_parameters Demo.externals Demo.f
           ([VInt 1], [("_test", VNone)])
           ([], [("_test", VNone); ("default", VStr "default"); ("x", VInt 1)])
           f_sig_wf same_parameters_example).
Defined.

Lemma merged_agree_but_underscore (key : string) :
  startswith_underscore key = false ->
  Dict.get key Demo.merged_1_test_none = Dict.get key Demo.merged_1.
Proof.
  intros Hk. unfold Demo.merged_1_test_none, Demo.merged_1.
  cbn [Dict.get].
  destruct (String.eqb_spec "_test" key) as [<-|_]; [discriminate Hk|].
  reflexivity.
Defined.

(** [f(1, _test=None)] and [f(1)] *)
Lemma underscore_parameters_ignored_witness :
  wf_sig (signature Demo.f)
  /\ Benchmark.func_args Demo.f [VInt 1] [("_test", VNone)]
     = Ok Demo.merged_1_test_none
  /\ Benchmark.func_args Demo.f [VInt 1] [] = Ok Demo.merged_1
  /\ (forall key, startswith_underscore key = false ->
                  Dict.get key Demo.merged_1_test_none
                  = Dict.get key Demo.merged_1)
  /\ Benchmark._get_arg_data Demo.f [VInt 1] [("_test", VNone)]
     = Benchmark._get_arg_data Demo.f [VInt 1] [].
Proof.
  split; [exact f_sig_wf|]. split; [reflexivity|]. split; [reflexivity|].
  split; [exact merged_agree_but_underscore|].
  exact (proj1 (@underscore_parameters_ignored Demo.externals Demo.f
                  ([VInt 1], [("_test", VNone)]) ([VInt 1], [])
                  Demo.merged_1_test_none Demo.merged_1
                  f_sig_wf eq_refl eq_refl merged_agree_but_underscore)).
Defined.

(** After [add(f, 1)], the other callable named [f] is known for [x=1]. *)
Lemma identity_is_name_and_arguments_witness :
  __name__ Demo.f = __name__ Demo.f_other
  /\ Benchmark.func_args Demo.f [VInt 1] [] = Ok Demo.merged_1
  /\ Benchmark.func_args Demo.f_other [] [("x", VInt 1)] = Ok Demo.merged_1
  /\ value_equal (identifying Demo.merged_1) (identifying Demo.merged_1)
  /\ Benchmark.add BenchmarkDb.empty Demo.w0 Demo.f [VInt 1] []
     = (Ok tt, fst Demo.after_add, snd Demo.after_add)
  /\ Benchmark.exists_ (fst Demo.after_add) Demo.f_other [] [("x", VInt 1)]
     = Ok true.
Proof.
  split; [reflexivity|]. split; [reflexivity|]. split; [reflexivity|].
  split; [apply ve_same|]. split; [reflexivity|].
  exact (proj1 (@identity_is_name_and_arguments Demo.externals
                  Demo.f Demo.f_other ([VInt 1], []) ([], [("x", VInt 1)])
                  Demo.merged_1 Demo.merged_1
                  BenchmarkDb.empty (fst Demo.after_add)
                  Demo.w0 (snd Demo.after_add)
                  eq_refl eq_refl eq_refl (ve_same _) eq_refl)).
Defined.

(** [add(f, 1)] twice: the second call runs nothing. *)
Example add_twice :
  let '(r1, self1, w1) :=
    Benchmark.add BenchmarkDb.empty Demo.w0 Demo.f [VInt 1] [] in
  let '(r2, self2, w2) :=
    Benchmark.add self1 w1 Demo.f [] [("x", VInt 1)] in
  r1 = Ok tt /\ r2 = Ok tt /\ self2 = self1
  /\ calls w1 = 1%nat /\ calls w2 = 1%nat
  /\ Benchmark.exists_ self1 Demo.f [VInt 1] [] = Ok true
  /\ Benchmark.exists_ self2 Demo.f [VInt 1] [] = Ok true.
Proof. vm_compute. repeat split. Qed.

(** What one step of the iteration yields for [entry_1] on an empty memory:
    the copy is the object at location 5, and the nested objects at 1 and 3
    are those of the dictionary at 4 that the scan produced. *)
Example yield_entry_shares_nested :
  Objects.yield_entry Demo.entry_1 []
  = (Objects.HRef 5%nat,
     [ Objects.ODict [("x", Objects.HAtom (Objects.ANum 1))];
       Objects.ODict [("func", Objects.HAtom (Objects.AStr "f"));
                      ("args", Objects.HRef 0%nat)];
       Objects.ODict [("r1", Objects.HAtom (Objects.ANum 1))];
       Objects.ODict [("result", Objects.HRef 2%nat);
                      ("stdout", Objects.HAtom (Objects.AStr "x"))];
       Objects.ODict [("fingerprint", Objects.HAtom (Objects.AStr "0af3"));
                      ("parameters", Objects.HRef 1%nat);
                      ("result", Objects.HRef 3%nat)];
       Objects.ODict [("fingerprint", Objects.HAtom (Objects.AStr "0af3"));
                      ("parameters", Objects.HRef 1%nat);
                      ("result", Objects.HRef 3%nat)] ]).
Proof. reflexivity. Qed.

(** * Further properties of [Benchmark] *)

Section MoreOfRun.
Context `{Externals}.
Import Benchmark.

Lemma exists_false_arg_data (self : t) (func : Callable) (args : list value)
    (kwargs : dict value) (b : bool) :
  exists_ self func args kwargs = Ok b ->
  exists fingp arg_data,
    _get_arg_data func args kwargs = Ok (fingp, arg_data)
    /\ BenchmarkDb.contains_fingerprint fingp self = b.
Proof.
  unfold exists_.
  destruct (_get_arg_data func args kwargs) as [[fingp arg_data]|e]; simpl;
    [|discriminate].
  intros [= <-]. now exists fingp, arg_data.
Qed.

(** X1.  An exception that is not an [Exception] ([SystemExit],
    [KeyboardInterrupt]) is not caught by [run]: it reaches the caller, the
    store is what it was, and nothing is printed, neither the report nor
    the text the callable wrote before it failed. *)
Theorem run_passes_base_exception (self : t) (w : World) (func : Callable)
    (args : list value) (kwargs : dict value) (fingp : string)
    (arg_data : json) (e : exn) :
  _get_arg_data func args kwargs = Ok (fingp, arg_data) ->
  outcome (body func w args kwargs) = Raise e ->
  exc_is_Exception e = false ->
  let '(r, self', w') := run self w func args kwargs in
  r = Raise e
  /\ self' = self
  /\ console_out w' = console_out w
  /\ console_err w' = console_err w
  /\ calls w' = S (calls w).
Proof.
  intros Hd Ho He. unfold run. rewrite Hd, Ho, He. repeat split.
Qed.

(** X2.  A computation that fails is not remembered: when [exists] is false
    and the callable raises, [add] raises the same exception after one
    call of the callable and leaves the store as it was, so [exists] is
    still false and the next [add] runs the callable again. *)
Theorem add_failure_is_retried (self : t) (w : World) (func : Callable)
    (args : list value) (kwargs : dict value) (e : exn) :
  exists_ self func args kwargs = Ok false ->
  outcome (body func w args kwargs) = Raise e ->
  let '(r, self', w') := add self w func args kwargs in
  r = Raise e
  /\ self' = self
  /\ calls w' = S (calls w)
  /\ exists_ self' func args kwargs = Ok false
  /\ add self' w' func args kwargs = run self' w' func args kwargs.
Proof.
  intros Hex Ho.
  destruct (exists_false_arg_data _ _ _ _ Hex) as (fingp & arg_data & Hd & _).
  assert (Hadd : forall w0, add self w0 func args kwargs
                            = run self w0 func args kwargs).
  { intros w0. unfold add. now rewrite Hex. }
  rewrite Hadd. unfold run at 1. rewrite Hd, Ho.
  destruct (exc_is_Exception e);
    (do 3 (split; [reflexivity|]); split; [exact Hex | apply Hadd]).
Qed.

(** X3.  [run] and [add] only ever add: whatever the outcome, the entries
    afterwards are the entries of before and at most one new Entry, none
    when an exception is raised, in whatever order a scan gives them; and a
    call for which [exists] was true is still known afterwards. *)
Theorem run_and_add_keep_entries (self : t) (w : World) (func : Callable)
    (args : list value) (kwargs : dict value) :
  (let '(r, self', w') := run self w func args kwargs in
   exists new, Permutation (iter self') (iter self ++ new)
               /\ (List.length new <= 1)%nat
               /\ (forall e, r = Raise e -> new = [])
               /\ forall g args' kwargs',
                    exists_ self g args' kwargs' = Ok true ->
                    exists_ self' g args' kwargs' = Ok true)
  /\ (let '(r, self', w') := add self w func args kwargs in
      exists new, Permutation (iter self') (iter self ++ new)
                  /\ (List.length new <= 1)%nat
                  /\ (forall e, r = Raise e -> new = [])
                  /\ forall g args' kwargs',
                       exists_ self g args' kwargs' = Ok true ->
                       exists_ self' g args' kwargs' = Ok true).
Proof.
  assert (Hsame : forall r : result unit,
             exists new : list Entry,
               Permutation (iter self) (iter self ++ new)
               /\ (List.length new <= 1)%nat
               /\ (forall e, r = Raise e -> new = [])
               /\ forall g args' kwargs',
                    exists_ self g args' kwargs' = Ok true ->
                    exists_ self g args' kwargs' = Ok true).
  { intros r. exists []. rewrite app_nil_r. simpl.
    split; [apply Permutation_refl|]. repeat split; auto. }
  assert (Hrun : let '(r, self', w') := run self w func args kwargs in
                 exists new, Permutation (iter self') (iter self ++ new)
                   /\ (List.length new <= 1)%nat
                   /\ (forall e, r = Raise e -> new = [])
                   /\ forall g args' kwargs',
                        exists_ self g args' kwargs' = Ok true ->
                        exists_ self' g args' kwargs' = Ok true).
  { unfold run.
    destruct (_get_arg_data func args kwargs) as [[fingp arg_data]|e0];
      [|apply Hsame].
    destruct (outcome (body func w args kwargs)) as [v|e0].
    - eexists [_]. unfold iter, BenchmarkDb.add.
      rewrite DbFacts.scan_insert. split; [apply Permutation_refl|].
      split; [simpl; lia|]. split; [discriminate|].
      intros g args' kwargs' Hex.
      destruct (exists_false_arg_data _ _ _ _ Hex) as (fp & ad & Hd & Hc).
      rewrite (exists_contains _ _ _ _ Hd).
      now rewrite (@DbFacts.contains_insert_mono fp _ self Hc).
    - destruct (exc_is_Exception e0); apply Hsame. }
  split; [exact Hrun|]. unfold add.
  destruct (exists_ self func args kwargs) as [[|]|e0];
    [apply Hsame | exact Hrun | apply Hsame].
Qed.
End MoreOfRun.

Lemma run_passes_base_exception_witness :
  Benchmark._get_arg_data Demo.exiting [VInt 3] []
  = Ok (fingerprint (Benchmark.arg_data_of Demo.exiting Demo.merged_3),
        to_json (Benchmark.arg_data_of Demo.exiting Demo.merged_3))
  /\ outcome (body Demo.exiting Demo.w0 [VInt 3] [])
     = Raise (Demo.SystemExit "1")
  /\ exc_is_Exception (Demo.SystemExit "1") = false
  /\ console_out (snd (Benchmark.run BenchmarkDb.empty Demo.w0 Demo.exiting
                         [VInt 3] []))
     = console_out Demo.w0.
Proof.
  split; [reflexivity|]. split; [reflexivity|]. split; [reflexivity|].
  pose proof (@run_passes_base_exception Demo.externals BenchmarkDb.empty
                Demo.w0 Demo.exiting [VInt 3] [] _ _ _
                eq_refl eq_refl eq_refl) as P.
  destruct (Benchmark.run BenchmarkDb.empty Demo.w0 Demo.exiting [VInt 3] [])
    as [[r self'] w'].
  exact (proj1 (proj2 (proj2 P))).
Defined.

(** [add(failing, 3)] on the empty store *)
Lemma add_failure_is_retried_witness :
  Benchmark.exists_ BenchmarkDb.empty Demo.failing [VInt 3] [] = Ok false
  /\ outcome (body Demo.failing Demo.w0 [VInt 3] [])
     = Raise (Demo.ValueError "boom")
  /\ snd (fst (Benchmark.add BenchmarkDb.empty Demo.w0 Demo.failing
                 [VInt 3] []))
     = BenchmarkDb.empty.
Proof.
  split; [reflexivity|]. split; [reflexivity|].
  pose proof (@add_failure_is_retried Demo.externals BenchmarkDb.empty
                Demo.w0 Demo.failing [VInt 3] [] _ eq_refl eq_refl) as P.
  destruct (Benchmark.add BenchmarkDb.empty Demo.w0 Demo.failing [VInt 3] [])
    as [[r self'] w'].
  exact (proj1 (proj2 P)).
Defined.

Section MoreOfDeleteIf.
Context `{Externals}.
Import Benchmark.

Lemma filter_twice {A : Type} (f g : A -> bool) (l : list A) :
  filter g (filter f l) = filter (fun x => f x && g x) l.
Proof.
  induction l as [|x l IH]; simpl; [reflexivity|].
  destruct (f x); simpl; [|exact IH].
  destruct (g x); now rewrite IH.
Qed.

Lemma existsb_filter {A : Type} (f g : A -> bool) (l : list A) :
  existsb f (filter g l) = existsb (fun x => f x && g x) l.
Proof.
  induction l as [|x l IH]; simpl; [reflexivity|].
  destruct (g x); simpl; rewrite IH.
  - now rewrite andb_true_r.
  - now rewrite andb_false_r.
Qed.

(** X4.  Two [delete_if] in a row remove what one [delete_if] with the
    disjunction of the predicates removes; hence their order does not
    matter, and a second [delete_if] with the same predicate removes
    nothing more. *)
Theorem delete_if_twice (self : t) (p q : Entry -> bool) :
  iter (delete_if (delete_if self p) q)
  = iter (delete_if self (fun e => p e || q e))
  /\ iter (delete_if (delete_if self p) q)
     = iter (delete_if (delete_if self q) p)
  /\ iter (delete_if (delete_if self p) p) = iter (delete_if self p).
Proof.
  rewrite !iter_delete_if, !filter_twice. repeat split.
  - apply filter_ext. intros e. now rewrite negb_orb.
  - apply filter_ext. intros e. apply andb_comm.
  - apply filter_ext. intros e. now destruct (p e).
Qed.

(** X5.  After [delete_if], [exists] is true for a call exactly when an
    Entry with the fingerprint of the call was stored and kept; when every
    Entry with that fingerprint has been removed, the next [add] computes the
    result anew. *)
Theorem exists_after_delete_if (self : t) (p : Entry -> bool)
    (func : Callable) (args : list value) (kwargs : dict value)
    (fingp : string) (arg_data : json) :
  _get_arg_data func args kwargs = Ok (fingp, arg_data) ->
  exists_ (delete_if self p) func args kwargs
  = Ok (existsb (fun e => (fingerprint_of e =? fingp)%string && negb (p e))
                (iter self))
  /\ ((forall e, In e (iter self) -> fingerprint_of e = fingp -> p e = true) ->
      exists_ (delete_if self p) func args kwargs = Ok false
      /\ forall w, add (delete_if self p) w func args kwargs
                   = run (delete_if self p) w func args kwargs).
Proof.
  intros Hd.
  assert (Hex : exists_ (delete_if self p) func args kwargs
                = Ok (existsb (fun e => (fingerprint_of e =? fingp)%string
                                        && negb (p e)) (iter self))).
  { rewrite (exists_contains _ _ _ _ Hd). unfold BenchmarkDb.contains_fingerprint.
    change (BenchmarkDb.scan (delete_if self p)) with (iter (delete_if self p)).
    now rewrite iter_delete_if, existsb_filter. }
  split; [exact Hex|]. intros Hall.
  assert (Hfalse : exists_ (delete_if self p) func args kwargs = Ok false).
  { rewrite Hex. f_equal. apply not_true_is_false. intros Ht.
    apply existsb_exists in Ht. destruct Ht as (e & Hin & He).
    apply andb_true_iff in He. destruct He as [Hfp Hp].
    apply String.eqb_eq in Hfp. rewrite (Hall e Hin Hfp) in Hp. discriminate. }
  split; [exact Hfalse|]. intros w. unfold add. now rewrite Hfalse.
Qed.
End MoreOfDeleteIf.

(** [f(1)] on the store that holds the result of [f(1)], once every Entry
    is removed *)
Lemma exists_after_delete_if_witness :
  Benchmark._get_arg_data Demo.f [VInt 1] []
  = Ok (fingerprint (Benchmark.arg_data_of Demo.f Demo.merged_1),
        to_json (Benchmark.arg_data_of Demo.f Demo.merged_1))
  /\ Benchmark.exists_ (fst Demo.after_add) Demo.f [VInt 1] [] = Ok true
  /\ Benchmark.exists_
       (Benchmark.delete_if (fst Demo.after_add) (fun _ => true))
       Demo.f [VInt 1] []
     = Ok false.
Proof.
  split; [reflexivity|]. split; [reflexivity|].
  pose proof (@exists_after_delete_if Demo.externals (fst Demo.after_add)
                (fun _ => true) Demo.f [VInt 1] [] _ _ eq_refl) as P.
  destruct P as [_ P]. apply P. intros e _ _. reflexivity.
Defined.

Section MoreOfArguments.
Context `{Externals}.
Import Benchmark.

Lemma get_update (k : string) (x acc : dict value) :
  NoDup (Dict.keys x) ->
  Dict.get k (Dict.update acc x)
  = match Dict.get k x with
    | Some v => Some v
    | None => Dict.get k acc
    end.
Proof.
  unfold Dict.update. revert acc.
  induction x as [|[k0 v0] x IH]; intros acc Hnd; simpl; [reflexivity|].
  inversion Hnd as [|? ? Hk Hnd']; subst. rewrite IH by exact Hnd'.
  rewrite DictFacts.get_set.
  destruct (String.eqb_spec k0 k) as [->|_]; [|reflexivity].
  apply DictFacts.get_None in Hk. now rewrite Hk.
Qed.

Lemma get_defaults_inv (sig : Signature) (key : string) (v : value) :
  NoDup (map name sig) ->
  Dict.get key (defaults sig) = Some v ->
  exists p, In p sig /\ name p = key /\ default p = Some v.
Proof.
  intros Hnd Hg.
  assert (Hin : In key (Dict.keys (defaults sig))).
  { destruct (in_dec string_dec key (Dict.keys (defaults sig))) as [Hin|Hn];
      [exact Hin|].
    apply DictFacts.get_None in Hn. congruence. }
  rewrite keys_defaults in Hin by exact Hnd.
  apply in_map_iff in Hin. destruct Hin as (p & Hn & Hp).
  apply filter_In in Hp. destruct Hp as [Hp Hd].
  unfold has_default in Hd. destruct (default p) as [d|] eqn:E; [|discriminate].
  exists p. split; [exact Hp|]. split; [exact Hn|].
  rewrite <- Hn in Hg. rewrite (get_defaults sig p Hnd Hp E) in Hg.
  now rewrite E, Hg.
Qed.

(** X6.  In the merged arguments a value supplied by the call takes
    precedence over the default of the parameter, a parameter the call
    leaves out has its default, and there is nothing else in them. *)
Theorem supplied_arguments_override_defaults (func : Callable)
    (args : list value) (kwargs arguments : dict value) :
  wf_sig (signature func) ->
  bind (signature func) args kwargs = Ok arguments ->
  exists m,
    func_args func args kwargs = Ok m
    /\ (forall key v, Dict.get key arguments = Some v ->
                      Dict.get key m = Some v)
    /\ (forall p d, In p (signature func) -> default p = Some d ->
                    Dict.get (name p) arguments = None ->
                    Dict.get (name p) m = Some d)
    /\ (forall key v, Dict.get key m = Some v ->
                      Dict.get key arguments = Some v
                      \/ exists p, In p (signature func) /\ name p = key
                                   /\ default p = Some v).
Proof.
  intros Hwf Hb. unfold func_args. rewrite Hb. simpl.
  eexists. split; [reflexivity|].
  assert (Hnd : NoDup (Dict.keys arguments)).
  { eapply subseq_NoDup; [eapply bind_keys; eassumption | apply Hwf]. }
  destruct Hwf as (Hn & _ & _).
  split; [|split].
  - intros key v Hg. now rewrite get_update, Hg.
  - intros p d Hp Hd Hg. rewrite get_update, Hg by exact Hnd.
    now apply get_defaults.
  - intros key v. rewrite get_update by exact Hnd.
    destruct (Dict.get key arguments) as [x|]; [intros [= ->]; now left|].
    intros Hg. right. now apply get_defaults_inv.
Qed.

Lemma keys_set_incl (n k : string) (v : value) (acc : dict value) :
  In n (Dict.keys acc) -> In n (Dict.keys (Dict.set k v acc)).
Proof.
  intros Hin. rewrite DictFacts.keys_set.
  destruct (Dict.mem k acc); [exact Hin|]. apply in_or_app. now left.
Qed.

Lemma keys_set_key (k : string) (v : value) (acc : dict value) :
  In k (Dict.keys (Dict.set k v acc)).
Proof.
  rewrite DictFacts.keys_set. destruct (Dict.mem k acc) eqn:M.
  - now apply DictFacts.mem_true.
  - apply in_or_app. right. now left.
Qed.

Lemma bind_keywords_complete (ps : Signature) (kwargs arguments : dict value)
    (kwargs_param : option Param) (a k : dict value) (kp : option Param) :
  bind_keywords ps kwargs arguments kwargs_param = Ok (a, k, kp) ->
  (forall n, In n (Dict.keys arguments) -> In n (Dict.keys a))
  /\ bound_or_default a ps.
Proof.
  revert kwargs arguments kwargs_param.
  induction ps as [|q ps IH]; intros kw acc kp0; simpl.
  - intros [= <- _ _]. split; [auto | intros p []].
  - assert (Hvar : forall kw' kp1,
               variadic q = true ->
               bind_keywords ps kw' acc kp1 = Ok (a, k, kp) ->
               (forall n, In n (Dict.keys acc) -> In n (Dict.keys a))
               /\ bound_or_default a (q :: ps)).
    { intros kw' kp1 Hq Hb. destruct (IH _ _ _ Hb) as [Hacc Hps].
      split; [exact Hacc|]. intros p [<-|Hin] Hp; [congruence | now apply Hps]. }
    destruct (kind_eqb (pkind q) VAR_KEYWORD) eqn:K1.
    { apply Hvar. unfold variadic. rewrite K1. apply orb_true_r. }
    destruct (kind_eqb (pkind q) VAR_POSITIONAL) eqn:K2.
    { apply Hvar. unfold variadic. now rewrite K2. }
    destruct (Dict.pop (name q) kw) as [[v r]|].
    + destruct (kind_eqb (pkind q) POSITIONAL_ONLY); [discriminate|].
      intros Hb. destruct (IH _ _ _ Hb) as [Hacc Hps]. split.
      * intros n Hn. apply Hacc. now apply keys_set_incl.
      * intros p [<-|Hin] Hp; [|now apply Hps].
        left. apply Hacc. apply keys_set_key.
    + destruct (default q) as [d|] eqn:D; [|discriminate].
      intros Hb. destruct (IH _ _ _ Hb) as [Hacc Hps].
      split; [exact Hacc|]. intros p [<-|Hin] Hp; [|now apply Hps].
      right. unfold has_default. now rewrite D.
Qed.

Lemma bind_keywords_then_complete (ps : Signature)
    (kwargs arguments a : dict value) :
  bind_keywords_then ps kwargs arguments = Ok a ->
  (forall n, In n (Dict.keys arguments) -> In n (Dict.keys a))
  /\ bound_or_default a ps.
Proof.
  unfold bind_keywords_then.
  destruct (bind_keywords ps kwargs arguments None) as [[[a1 k1] kp]|e] eqn:E;
    simpl; [|discriminate].
  destruct (bind_keywords_complete _ _ _ _ E) as [Hacc Hps].
  unfold bind_leftover. destruct k1 as [|[x y] k1].
  - intros [= <-]. now split.
  - destruct kp as [q|]; [|discriminate]. intros [= <-]. split.
    + intros n Hn. apply keys_set_incl. now apply Hacc.
    + intros p Hin Hp. destruct (Hps p Hin Hp) as [Hb|Hd]; [|now right].
      left. now apply keys_set_incl.
Qed.

Lemma bind_from_complete (ps : Signature) (args : list value)
    (kwargs arguments a : dict value) :
  bind_from ps args kwargs arguments = Ok a ->
  (forall n, In n (Dict.keys arguments) -> In n (Dict.keys a))
  /\ bound_or_default a ps.
Proof.
  revert ps arguments.
  induction args as [|x args IH]; intros ps acc.
  - rewrite bind_from_no_args. apply bind_keywords_then_complete.
  - destruct ps as [|q ps]; [discriminate|].
    unfold bind_from. simpl.
    destruct (kind_eqb (pkind q) VAR_KEYWORD || kind_eqb (pkind q) KEYWORD_ONLY);
      [discriminate|].
    destruct (kind_eqb (pkind q) VAR_POSITIONAL) eqn:K.
    + intros Hb. destruct (bind_keywords_then_complete _ _ _ Hb) as [Hacc Hps].
      split.
      * intros n Hn. apply Hacc. now apply keys_set_incl.
      * intros p [<-|Hin] Hp; [|now apply Hps].
        unfold variadic in Hp. rewrite K in Hp. discriminate.
    + destruct (Dict.mem (name q) kwargs
                && negb (kind_eqb (pkind q) POSITIONAL_ONLY)); [discriminate|].
      intros Hb. destruct (IH _ _ Hb) as [Hacc Hps]. split.
      * intros n Hn. apply Hacc. now apply keys_set_incl.
      * intros p [<-|Hin] Hp; [|now apply Hps].
        left. apply Hacc. apply keys_set_key.
Qed.

Lemma keys_update_incl (n : string) (acc x : dict value) :
  In n (Dict.keys acc) \/ In n (Dict.keys x) ->
  In n (Dict.keys (Dict.update acc x)).
Proof.
  unfold Dict.update. revert acc.
  induction x as [|[k v] x IH]; intros acc; simpl.
  - intros [Hin|[]]. exact Hin.
  - intros [Hin|[<-|Hin]]; apply IH.
    + left. now apply keys_set_incl.
    + left. apply keys_set_key.
    + now right.
Qed.

Lemma subseq_full {A : Type} (s l : list A) :
  subseq s l -> NoDup l -> (forall x, In x l -> In x s) -> s = l.
Proof.
  induction 1 as [|x s l Hs IH|x s l Hs IH]; intros Hnd Hall.
  - reflexivity.
  - exfalso. inversion Hnd as [|? ? Hx _]; subst. apply Hx.
    eapply subseq_In; [exact Hs|]. apply Hall. now left.
  - inversion Hnd as [|? ? Hx Hnd']; subst. f_equal. apply IH; [exact Hnd'|].
    intros y Hy. destruct (Hall y (or_intror Hy)) as [->|Hin];
      [contradiction | exact Hin].
Qed.

Lemma keys_filter_keys (p : string -> bool) (d : dict value) :
  Dict.keys (Dict.filter_keys p d) = filter p (Dict.keys d).
Proof.
  induction d as [|[k v] d IH]; simpl; [reflexivity|].
  destruct (p k); simpl; now rewrite IH.
Qed.

(** X7.  The keys of the merged arguments depend on the signature, not on
    how the call is written: they follow the order of the parameters with a
    default and then of those without, every named parameter is among
    them, and when the callable has neither [*args] nor [**kwargs] they
    are exactly these names; the [args] of the stored record are then the
    names that do not begin with an underscore, in that order. *)
Theorem record_keys_from_signature (func : Callable) (args : list value)
    (kwargs m : dict value) :
  wf_sig (signature func) ->
  func_args func args kwargs = Ok m ->
  subseq (Dict.keys m) (merged_order (signature func))
  /\ (forall p, In p (signature func) -> variadic p = false ->
                In (name p) (Dict.keys m))
  /\ (Forall (fun p => variadic p = false) (signature func) ->
      Dict.keys m = merged_order (signature func)
      /\ Dict.keys (Dict.filter_keys
                      (fun key => negb (startswith_underscore key)) m)
         = filter (fun key => negb (startswith_underscore key))
                  (merged_order (signature func))).
Proof.
  intros Hwf Hm.
  pose proof (@merged_keys func args kwargs m Hwf Hm) as Hsub.
  assert (Hall : forall p, In p (signature func) -> variadic p = false ->
                           In (name p) (Dict.keys m)).
  { unfold func_args in Hm.
    destruct (bind (signature func) args kwargs) as [a|e] eqn:E; simpl in Hm;
      [|discriminate].
    injection Hm as <-. rewrite bind_is_bind_from in E.
    destruct (bind_from_complete _ _ _ _ E) as [_ Hps].
    intros p Hp Hv. apply keys_update_incl.
    destruct (Hps p Hp Hv) as [Hb|Hd]; [now right|]. left.
    rewrite keys_defaults by apply Hwf.
    apply in_map. apply filter_In. now split. }
  split; [exact Hsub|]. split; [exact Hall|].
  intros Hnv.
  assert (Hk : Dict.keys m = merged_order (signature func)).
  { apply subseq_full; [exact Hsub | apply NoDup_merged_order, Hwf|].
    intros n Hn. unfold merged_order in Hn. apply in_app_or in Hn.
    rewrite Forall_forall in Hnv.
    destruct Hn as [Hn|Hn]; apply in_map_iff in Hn;
      destruct Hn as (p & <- & Hp); apply filter_In in Hp;
      destruct Hp as [Hp _]; apply Hall; auto. }
  split; [exact Hk|]. now rewrite keys_filter_keys, Hk.
Qed.
End MoreOfArguments.

(** [f(1, _test=None)]: [x] and [_test] are supplied, [default] is not. *)
Lemma supplied_arguments_override_defaults_witness :
  wf_sig (signature Demo.f)
  /\ bind (signature Demo.f) [VInt 1] [("_test", VNone)]
     = Ok [("x", VInt 1); ("_test", VNone)]
  /\ exists m,
       Benchmark.func_args Demo.f [VInt 1] [("_test", VNone)] = Ok m
       /\ Dict.get "_test" m = Some VNone.
Proof.
  split; [exact f_sig_wf|]. split; [reflexivity|].
  destruct (@supplied_arguments_override_defaults Demo.f
              [VInt 1] [("_test", VNone)] [("x", VInt 1); ("_test", VNone)]
              f_sig_wf eq_refl) as (m & Hm & Hsup & _).
  exists m. split; [exact Hm|]. apply Hsup. reflexivity.
Defined.

Lemma record_keys_from_signature_witness :
  wf_sig (signature Demo.f)
  /\ Benchmark.func_args Demo.f [] [("x", VInt 1)] = Ok Demo.merged_1
  /\ Dict.keys Demo.merged_1 = merged_order (signature Demo.f).
Proof.
  split; [exact f_sig_wf|]. split; [reflexivity|].
  destruct (@record_keys_from_signature Demo.f
              [] [("x", VInt 1)] Demo.merged_1 f_sig_wf eq_refl)
    as (_ & _ & Hk).
  apply Hk. repeat constructor.
Defined.

(** * Further properties of the yielded objects *)
Module MoreObjectFacts.
Import Objects.

Lemma within_mono (lo lo' hi hi' : nat) (v : hval) :
  (lo' <= lo)%nat -> (hi <= hi')%nat -> within lo hi v -> within lo' hi' v.
Proof. destruct v; simpl; [trivial | lia]. Qed.

Lemma obj_within_mono (lo lo' hi hi' : nat) (o : obj) :
  (lo' <= lo)%nat -> (hi <= hi')%nat ->
  obj_within lo hi o -> obj_within lo' hi' o.
Proof.
  intros Hlo Hhi. apply Forall_impl. intros v. now apply within_mono.
Qed.

Lemma grown_closed_refl (h : heap) : grown_closed h h.
Proof. exists []. rewrite app_nil_r. split; [reflexivity | constructor]. Qed.

Lemma grown_closed_trans (h1 h2 h3 : heap) :
  grown_closed h1 h2 -> grown_closed h2 h3 -> grown_closed h1 h3.
Proof.
  intros (e1 & -> & H1) (e2 & -> & H2). exists (e1 ++ e2).
  split; [now rewrite app_assoc|].
  rewrite !length_app in *. apply Forall_app. split.
  - eapply Forall_impl; [|exact H1]. intros o. apply obj_within_mono; lia.
  - eapply Forall_impl; [|exact H2]. intros o. apply obj_within_mono; lia.
Qed.

Lemma grown_closed_length (h h' : heap) :
  grown_closed h h' -> (List.length h <= List.length h')%nat.
Proof. intros (e & -> & _). rewrite length_app. lia. Qed.

Lemma grown_closed_alloc (h h' : heap) (o : obj) :
  grown_closed h h' ->
  obj_within (List.length h) (S (List.length h')) o ->
  grown_closed h (h' ++ [o]).
Proof.
  intros (e & -> & He) Ho. exists (e ++ [o]).
  split; [now rewrite app_assoc|].
  rewrite !length_app in *. simpl in *. apply Forall_app. split.
  - eapply Forall_impl; [|exact He]. intros x. apply obj_within_mono; lia.
  - constructor; [|constructor].
    eapply obj_within_mono; [| |exact Ho]; lia.
Qed.

Lemma load_list_closed (l : list json) :
  Forall load_closed l ->
  forall h, grown_closed h (snd (load_list load l h))
            /\ Forall (within (List.length h)
                              (List.length (snd (load_list load l h))))
                      (fst (load_list load l h)).
Proof.
  induction 1 as [|x l Hx _ IH]; intros h.
  - simpl. split; [apply grown_closed_refl | constructor].
  - simpl. destruct (Hx h) as [G1 W1].
    destruct (load x h) as [v h1]. simpl in G1, W1.
    destruct (IH h1) as [G2 W2].
    destruct (load_list load l h1) as [vs h2]. simpl in *.
    pose proof (grown_closed_length G1). pose proof (grown_closed_length G2).
    split; [eapply grown_closed_trans; eassumption|].
    constructor.
    + eapply within_mono; [| |exact W1]; lia.
    + eapply Forall_impl; [|exact W2]. intros y. apply within_mono; lia.
Qed.

Lemma load_items_closed (d : list (string * json)) :
  Forall (fun kv => load_closed (snd kv)) d ->
  forall h, grown_closed h (snd (load_items load d h))
            /\ Forall (within (List.length h)
                              (List.length (snd (load_items load d h))))
                      (map snd (fst (load_items load d h))).
Proof.
  induction 1 as [|[k x] d Hx _ IH]; intros h.
  - simpl. split; [apply grown_closed_refl | constructor].
  - simpl in *. destruct (Hx h) as [G1 W1].
    destruct (load x h) as [v h1]. simpl in G1, W1.
    destruct (IH h1) as [G2 W2].
    destruct (load_items load d h1) as [kvs h2]. simpl in *.
    pose proof (grown_closed_length G1). pose proof (grown_closed_length G2).
    split; [eapply grown_closed_trans; eassumption|].
    constructor.
    + eapply within_mono; [| |exact W1]; lia.
    + eapply Forall_impl; [|exact W2]. intros y. apply within_mono; lia.
Qed.

Lemma load_is_closed (j : json) : load_closed j.
Proof.
  induction j as [| b | q | s | l IH | d IH]
    using ObjectFacts.json_nested_ind; intros h;
    try (simpl; split; [apply grown_closed_refl | exact I]).
  - simpl. destruct (load_list_closed IH h) as [G W].
    destruct (load_list load l h) as [vs h2]. simpl in *.
    pose proof (grown_closed_length G).
    split.
    + apply grown_closed_alloc; [exact G|].
      eapply Forall_impl; [|exact W]. intros y. apply within_mono; lia.
    + rewrite length_app. simpl. lia.
  - simpl. destruct (load_items_closed IH h) as [G W].
    destruct (load_items load d h) as [kvs h2]. simpl in *.
    pose proof (grown_closed_length G).
    split.
    + apply grown_closed_alloc; [exact G|].
      eapply Forall_impl; [|exact W]. intros y. apply within_mono; lia.
    + rewrite length_app. simpl. lia.
Qed.

Lemma traverse_ext_in {A B : Type} (f g : A -> option B) (l : list A) :
  (forall x, In x l -> f x = g x) -> traverse f l = traverse g l.
Proof.
  induction l as [|x l IH]; intros Hext; simpl; [reflexivity|].
  rewrite (Hext x (or_introl eq_refl)), IH; [reflexivity|].
  intros y Hy. apply Hext. now right.
Qed.

(** Reading a value that lies in a closed range of objects looks at the
    objects of that range only. *)
Lemma read_agree (lo hi : nat) (h h' : heap) :
  (forall i o, (lo <= i < hi)%nat -> nth_error h i = Some o ->
               obj_within lo hi o) ->
  agree_on lo hi h h' ->
  forall n v, within lo hi v -> read n h' v = read n h v.
Proof.
  intros Hcl Hag. induction n as [|n IH]; intros [a|l] Hv; try reflexivity.
  simpl in Hv. cbn [read]. rewrite (Hag l Hv).
  destruct (nth_error h l) as [o|] eqn:E; [|reflexivity].
  specialize (Hcl l o Hv E). unfold obj_within in Hcl.
  rewrite Forall_forall in Hcl.
  destruct o as [items|items]; simpl in Hcl; f_equal.
  - apply traverse_ext_in. intros [k x] Hin. cbn [fst snd].
    rewrite IH; [reflexivity|]. apply Hcl.
    change x with (snd (k, x)). now apply in_map.
  - apply traverse_ext_in. intros x Hin. apply IH. now apply Hcl.
Qed.

Lemma grown_closed_objects (h h' : heap) :
  grown_closed h h' ->
  forall i o, (List.length h <= i < List.length h')%nat ->
              nth_error h' i = Some o ->
              obj_within (List.length h) (List.length h') o.
Proof.
  intros (e & -> & He) i o Hi Hn.
  rewrite nth_error_app2 in Hn by lia.
  apply nth_error_In in Hn. rewrite Forall_forall in He. now apply He.
Qed.

Lemma length_snoc {A : Type} (l : list A) (x : A) :
  List.length (l ++ [x]) = S (List.length l).
Proof. rewrite length_app. simpl. lia. Qed.

(** One step of the iteration: the scan builds its dictionary last, at the
    end of the objects it adds, and the copy goes right after it. *)
Lemma yield_entry_shape (e : Entry) (h : heap) :
  exists hdb items,
    load (entry_json e) h = (HRef (List.length hdb), hdb ++ [ODict items])
    /\ yield_entry e h
       = (HRef (S (List.length hdb)), (hdb ++ [ODict items]) ++ [ODict items])
    /\ (List.length h <= List.length hdb)%nat
    /\ grown_closed h (hdb ++ [ODict items])
    /\ grown_closed h ((hdb ++ [ODict items]) ++ [ODict items]).
Proof.
  pose proof (load_is_closed (entry_json e) h) as [G W].
  unfold yield_entry. revert G W. unfold entry_json.
  set (d := [("fingerprint", JStr (fingerprint_of e));
             ("parameters", parameters e); ("result", result_of e)]).
  change (load (JDict d) h)
    with (let '(kvs, h') := load_items load d h in alloc (ODict kvs) h').
  destruct (load_items load d h) as [kvs h2]. unfold alloc. cbn [fst snd].
  intros G W. simpl in W.
  exists h2, kvs. split; [reflexivity|].
  rewrite (@ObjectFacts.copy_is_shallow _ _ kvs
             (ObjectFacts.nth_error_last h2 (ODict kvs))).
  rewrite length_snoc. split; [reflexivity|]. split; [lia|].
  split; [exact G|].
  apply grown_closed_alloc; [exact G|].
  eapply obj_within_mono;
    [| |apply (grown_closed_objects G (i := List.length h2))].
  - lia.
  - lia.
  - rewrite length_snoc. lia.
  - apply ObjectFacts.nth_error_last.
Qed.

(** X8.  [entry.copy()] is a shallow copy.  The dictionary that iteration
    yields is another object than the dictionary the scan built and has the
    same items, so the nested objects are shared between the two; giving
    the yielded dictionary any new content, keys set or deleted, leaves
    the value of the dictionary of the scan as it was. *)
Theorem copy_protects_top_level (e : Entry) (h : heap) :
  exists l_db hdb l h1 items,
    load (entry_json e) h = (HRef l_db, hdb)
    /\ yield_entry e h = (HRef l, h1)
    /\ l <> l_db
    /\ nth_error h1 l_db = Some (ODict items)
    /\ nth_error h1 l = Some (ODict items)
    /\ forall (o : obj) (n : nat),
         read n (write l o h1) (HRef l_db) = read n h1 (HRef l_db).
Proof.
  destruct (yield_entry_shape e h) as (h2 & kvs & Hl & Hy & Hlen & G & _).
  exists (List.length h2), (h2 ++ [ODict kvs]), (S (List.length h2)),
         ((h2 ++ [ODict kvs]) ++ [ODict kvs]), kvs.
  split; [exact Hl|]. split; [exact Hy|]. split; [lia|].
  split.
  { rewrite nth_error_app1 by (rewrite length_snoc; lia).
    apply ObjectFacts.nth_error_last. }
  split.
  { rewrite <- (length_snoc h2 (ODict kvs)). apply ObjectFacts.nth_error_last. }
  intros o n.
  apply (@read_agree (List.length h) (S (List.length h2))).
  - intros i x Hi Hn.
    rewrite nth_error_app1 in Hn by (rewrite length_snoc; lia).
    rewrite <- (length_snoc h2 (ODict kvs)).
    apply (grown_closed_objects G (i := i)); [rewrite length_snoc; lia | exact Hn].
  - intros i Hi. apply ObjectFacts.write_other. lia.
  - simpl. lia.
Qed.



End MoreObjectFacts.

(** The memory of the example is what the scan, modelled as loading the
    record, builds for [entry_1]; the dictionary at location 4 reads as the
    Entry. *)
Example memory_1_holds_entry_1 :
  Objects.load (Objects.entry_json Demo.entry_1) []
  = (Objects.HRef 4%nat, Demo.memory_1)
  /\ Objects.read 4%nat Demo.memory_1 (Objects.HRef 4%nat)
     = Some (Objects.entry_json Demo.entry_1).
Proof. split; reflexivity. Qed.




Section MoreOfInsert.
Context `{Externals}.
Import Benchmark.

Lemma iter_fold_insert (es : list Entry) (self : t) :
  iter (fold_left insert es self) = iter self ++ es.
Proof. unfold iter, insert. apply DbFacts.scan_fold_insert. Qed.

(** X10.  Entries handed out by iteration can be put into another benchmark
    with [insert]: after copying every Entry of one benchmark into another,
    the result holds the Entries of both, each as often as the two held it,
    in whatever order a scan gives them, and every call that [exists] knew
    in either is known in the result. *)
Theorem copied_entries_are_known (source target : t) :
  let copy := fold_left insert (iter source) target in
  Permutation (iter copy) (iter target ++ iter source)
  /\ forall func args kwargs,
       exists_ source func args kwargs = Ok true
       \/ exists_ target func args kwargs = Ok true ->
       exists_ copy func args kwargs = Ok true.
Proof.
  intros copy.
  assert (Hit : iter copy = iter target ++ iter source)
    by apply iter_fold_insert.
  split; [rewrite Hit; apply Permutation_refl|].
  intros func args kwargs Hex.
  assert (Hd : exists fingp arg_data,
             _get_arg_data func args kwargs = Ok (fingp, arg_data)
             /\ (BenchmarkDb.contains_fingerprint fingp source = true
                 \/ BenchmarkDb.contains_fingerprint fingp target = true)).
  { destruct Hex as [Hex|Hex];
      destruct (exists_false_arg_data _ _ _ _ Hex) as (fp & ad & Hd & Hc);
      exists fp, ad; auto. }
  destruct Hd as (fp & ad & Hd & Hc).
  rewrite (exists_contains _ _ _ _ Hd). f_equal.
  unfold BenchmarkDb.contains_fingerprint in *.
  change (BenchmarkDb.scan copy) with (iter copy).
  rewrite Hit, existsb_app. apply orb_true_iff. tauto.
Qed.

(** X11.  [repair] forgets nothing that [exists] knew: for every callable
    and arguments, [exists] answers after [repair] what it answered
    before. *)
Theorem repair_keeps_what_exists_knew (self : t) (func : Callable)
    (args : list value) (kwargs : dict value) :
  exists_ (repair self) func args kwargs = exists_ self func args kwargs.
Proof.
  unfold exists_.
  destruct (_get_arg_data func args kwargs) as [[fp ad]|e]; simpl;
    [|reflexivity].
  f_equal. unfold BenchmarkDb.contains_fingerprint.
  change (BenchmarkDb.scan (repair self)) with (iter (repair self)).
  change (BenchmarkDb.scan self) with (iter self).
  unfold repair. rewrite iter_delete_if. f_equal.
  induction (iter self) as [|x l IH]; simpl; [reflexivity|].
  f_equal. exact IH.
Qed.
End MoreOfInsert.
